(** * onionbox: the ephemeral buffer, its store, the HTTP handlers and the
      upload pipeline, embedded from [onion_buffer] and [onionbox.go].

    Go values are embedded as follows.
    - [int]/[int64]: [Z], with the two's-complement wrap written out where the
      code does arithmetic ([wrap64]).
    - [[]byte]: [list byte].  [string]: [string].
    - [error]: [option error], [None] being [nil].
    - [time.Time]: a wall-clock instant [(sec, nsec)] counted from the zero
      [Time] (January 1, year 1, 00:00:00 UTC); [time.Now()] is an argument.
    - [sync.Mutex]: a [bool] ([true] = held).  [Lock] on a held mutex never
      returns: outcome [Blocks].
    - the [*OnionBuffer] pointers that the store hands out: the store maps a
      name to the one buffer object registered under it, and every mutation
      made through the pointer is a mutation of that entry.
    - results of system calls and of library writers are read from an explicit
      environment record, one per call of the function that uses them.
    - [ob.logf] lines leave no trace in the model; the [logger] field of
      [onionbox] is left out. *)

From Stdlib Require Import ZArith Ascii String.
From Stdlib.Strings Require Import Byte.
From stdpp Require Import gmap strings list.

Local Open Scope Z_scope.

(** ** Go base values *)

Inductive error : Type :=
| EOF                       (* io.EOF *)
| Errno (code : Z)          (* a syscall.Errno *)
| ErrOther (msg : string).  (* any other error value *)

Definition is_EOF (e : error) : bool :=
  match e with EOF => true | _ => false end.

(** What a call can do: return, block forever (a [Lock] nobody will release),
    or panic (nil dereference, negative WaitGroup counter). *)
Inductive Outcome (A : Type) : Type :=
| Returns (a : A)
| Blocks
| Panics.
Arguments Returns {A} a.
Arguments Blocks {A}.
Arguments Panics {A}.

Definition wrap64 (x : Z) : Z := (x + 2 ^ 63) mod 2 ^ 64 - 2 ^ 63.

(** ** time.Time *)

Record Time : Type := mkTime { sec : Z; nsec : Z }.

(** The zero value of [time.Time]: what a field holds when it was never set. *)
Definition zeroTime : Time := mkTime 0 0.

(** [t.After(u)] on wall-clock readings. *)
Definition After (t u : Time) : bool :=
  (sec u <? sec t) || ((sec t =? sec u) && (nsec u <? nsec t)).

(** [now >= t]: the instant [now] is at or past [t]. *)
Definition at_or_past (now t : Time) : bool :=
  (sec t <? sec now) || ((sec t =? sec now) && (nsec t <=? nsec now)).

(** ** package onion_buffer: the OnionBuffer struct *)

Record OnionBuffer : Type := mkOnionBuffer {
  Mutex : bool;             (* embedded sync.Mutex *)
  Name : string;
  Bytes : list byte;
  Checksum : string;
  Encrypted : bool;
  Downloads : Z;
  DownloadLimit : Z;
  DownloadsLimited : bool;
  CreatedAt : Time;
  ExpiresAt : Time;
  ChunkSize : Z;            (* set by upload in onionbox.go *)
  Pinned : bool             (* ghost: the memory backing Bytes is mlock'ed *)
}.

Definition with_Mutex (m : bool) (b : OnionBuffer) : OnionBuffer :=
  mkOnionBuffer m (Name b) (Bytes b) (Checksum b) (Encrypted b) (Downloads b)
    (DownloadLimit b) (DownloadsLimited b) (CreatedAt b) (ExpiresAt b)
    (ChunkSize b) (Pinned b).

Definition with_Bytes (bs : list byte) (b : OnionBuffer) : OnionBuffer :=
  mkOnionBuffer (Mutex b) (Name b) bs (Checksum b) (Encrypted b) (Downloads b)
    (DownloadLimit b) (DownloadsLimited b) (CreatedAt b) (ExpiresAt b)
    (ChunkSize b) (Pinned b).

Definition with_Checksum (c : string) (b : OnionBuffer) : OnionBuffer :=
  mkOnionBuffer (Mutex b) (Name b) (Bytes b) c (Encrypted b) (Downloads b)
    (DownloadLimit b) (DownloadsLimited b) (CreatedAt b) (ExpiresAt b)
    (ChunkSize b) (Pinned b).

Definition with_Encrypted (e : bool) (b : OnionBuffer) : OnionBuffer :=
  mkOnionBuffer (Mutex b) (Name b) (Bytes b) (Checksum b) e (Downloads b)
    (DownloadLimit b) (DownloadsLimited b) (CreatedAt b) (ExpiresAt b)
    (ChunkSize b) (Pinned b).

Definition with_Downloads (d : Z) (b : OnionBuffer) : OnionBuffer :=
  mkOnionBuffer (Mutex b) (Name b) (Bytes b) (Checksum b) (Encrypted b) d
    (DownloadLimit b) (DownloadsLimited b) (CreatedAt b) (ExpiresAt b)
    (ChunkSize b) (Pinned b).

Definition with_DownloadLimit (l : Z) (b : OnionBuffer) : OnionBuffer :=
  mkOnionBuffer (Mutex b) (Name b) (Bytes b) (Checksum b) (Encrypted b)
    (Downloads b) l (DownloadsLimited b) (CreatedAt b) (ExpiresAt b)
    (ChunkSize b) (Pinned b).

Definition with_Pinned (p : bool) (b : OnionBuffer) : OnionBuffer :=
  mkOnionBuffer (Mutex b) (Name b) (Bytes b) (Checksum b) (Encrypted b)
    (Downloads b) (DownloadLimit b) (DownloadsLimited b) (CreatedAt b)
    (ExpiresAt b) (ChunkSize b) p.

(** The literal [&OnionBuffer{Name: name, ChunkSize: chunk}]: every other
    field has its zero value. *)
Definition newOnionBuffer (name : string) (chunk : Z) : OnionBuffer :=
  mkOnionBuffer false name [] "" false 0 0 false zeroTime zeroTime chunk false.

(** ** OnionBuffer.Destroy *)

(** What the system and the zip writer answer during one call of [Destroy]. *)
Record DestroyEnv : Type := mkDestroyEnv {
  mlock_chunk : option error;         (* syscall.Mlock(chunk) *)
  zip_create : option error;          (* zWriter.Create(of.Name); dropped by the code *)
  read_fault : nat -> option error;   (* reader.Read failing at iteration i *)
  write_fault : nat -> option error;  (* bufFile.Write failing at iteration i *)
  munlock_bytes : option error        (* syscall.Munlock(of.Bytes) *)
}.

(** How the [for] loop of [Destroy] ends.  [scratch] collects what was written
    to [bufFile], an entry of the zip writer over the local [buffer]. *)
Inductive LoopEnd : Type :=
| LoopBreak (err : error) (scratch : list byte)   (* break: reader.Read failed *)
| LoopReturn (err : error) (scratch : list byte)  (* return err: the write failed *)
| LoopPanic.                                      (* Write on the nil bufFile *)

(** [input] is what the reader over [of.Bytes] still has to deliver. *)
Fixpoint wipe_loop (env : DestroyEnv) (input : list byte) (i : nat)
    (scratch : list byte) : LoopEnd :=
  match read_fault env i with
  | Some e => LoopBreak e scratch
  | None =>
    match input with
    | [] => LoopBreak EOF scratch
    | _ :: rest =>
      match zip_create env with
      | Some _ => LoopPanic
      | None =>
        match write_fault env i with
        | Some e => LoopReturn e scratch
        | None => wipe_loop env rest (S i) (scratch ++ ["0"%byte])
        end
      end
    end
  end.

(** [of.Lock()]. *)
Definition Lock (b : OnionBuffer) : Outcome OnionBuffer :=
  if Mutex b then Blocks else Returns (with_Mutex true b).

(** [of.Unlock()] as [Destroy] calls it, holding the mutex. *)
Definition Unlock (b : OnionBuffer) : OnionBuffer := with_Mutex false b.

Definition Destroy (env : DestroyEnv) (b : OnionBuffer)
    : Outcome (option error * OnionBuffer) :=
  match Lock b with
  | Blocks => Blocks
  | Panics => Panics
  | Returns b1 =>
    match mlock_chunk env with
    | Some e => Returns (Some e, b1)
    | None =>
      match wipe_loop env (Bytes b1) 0 [] with
      | LoopPanic => Panics
      | LoopReturn e _ => Returns (Some e, b1)
      | LoopBreak e _ =>
        if is_EOF e then
          match munlock_bytes env with
          | Some e' => Returns (Some e', b1)
          | None => Returns (None, Unlock (with_Pinned false b1))
          end
        else Returns (Some e, b1)
      end
    end
  end.

(** ** OnionBuffer.IsExpired *)

Definition IsExpired (b : OnionBuffer) (now : Time) : bool :=
  if After (ExpiresAt b) now then false else true.

(** ** package onion_buffer: what onionbox.go calls and src/ does not hold *)

(** The functions of package [onion_buffer] that [onionbox.go] calls and whose
    bodies are not in the sources at hand, together with [strconv.Atoi].
    They are parameters of the handlers. *)
Class Collaborators : Type := {
  (* the digest behind GetChecksum / ValidateChecksum *)
  compute_digest : list byte -> string * option error;
  (* onion_buffer.Encrypt(bytes, pass) *)
  Encrypt : list byte -> string -> list byte * option error;
  (* onion_buffer.Decrypt(bytes, pass) *)
  Decrypt : list byte -> string -> list byte * option error;
  (* the instant SetExpiration("<n>m") computes when called at [now] *)
  expiry_of : string -> Time -> Time * option error;
  (* strconv.Atoi *)
  Atoi : string -> Z * option error
}.

Definition with_ExpiresAt (t : Time) (b : OnionBuffer) : OnionBuffer :=
  mkOnionBuffer (Mutex b) (Name b) (Bytes b) (Checksum b) (Encrypted b)
    (Downloads b) (DownloadLimit b) (DownloadsLimited b) (CreatedAt b) t
    (ChunkSize b) (Pinned b).

(** Modelled from the spec: [GetChecksum], absent from the sources; the spec's
    IntegrityCheck [compute(bytes) -> digest], over the buffer's content. *)
Definition GetChecksum `{Collaborators} (b : OnionBuffer) : string * option error :=
  compute_digest (Bytes b).

(** Modelled from the spec: [ValidateChecksum], absent from the sources; the
    spec's [verify(bytes, digest) -> bool]: the digest is recomputed over the
    current content and compared with the stored one. *)
Definition ValidateChecksum `{Collaborators} (b : OnionBuffer) : bool * option error :=
  match GetChecksum b with
  | (_, Some e) => (false, Some e)
  | (c, None) => (String.eqb c (Checksum b), None)
  end.

(** Modelled from the spec: [SetExpiration], absent from the sources; it sets
    [ExpiresAt] (the spec's [expiresAt]) and nothing else. *)
Definition SetExpiration `{Collaborators} (expiration : string) (now : Time)
    (b : OnionBuffer) : OnionBuffer * option error :=
  match expiry_of expiration now with
  | (_, Some e) => (b, Some e)
  | (t, None) => (with_ExpiresAt t b, None)
  end.

(** ** OnionStore *)

Module Store.

(** Modelled from the spec: the store type [OnionStore], absent from the
    sources; the spec's [entries], a mapping from name to buffer with unique
    keys. *)
Abbreviation t := (gmap string OnionBuffer).

(** Modelled from the spec: [NewStore], absent from the sources. *)
Definition NewStore : t := ∅.

(** Modelled from the spec: [Exists], absent from the sources;
    [exists(name) -> bool]. *)
Definition Exists (name : string) (s : t) : bool :=
  match s !! name with Some _ => true | None => false end.

(** Modelled from the spec: [Get], absent from the sources; [get(name)], a
    read-only lookup.  [None] is the nil pointer. *)
Definition Get (name : string) (s : t) : option OnionBuffer := s !! name.

(** Modelled from the spec: [Add], absent from the sources; [add(buffer)]
    rejects with NameCollision if a live entry already uses the same name,
    otherwise inserts. *)
Definition Add (b : OnionBuffer) (s : t) : t * option error :=
  match s !! Name b with
  | Some _ => (s, Some (ErrOther "NameCollision"))
  | None => (<[Name b := b]> s, None)
  end.

(** Modelled from the spec: the store's [Destroy], absent from the sources;
    [destroy(buffer)] calls [buffer.destroy()] then removes it from the map.
    The buffer is the object registered under [name]; when its own [Destroy]
    returns an error the entry stays, in the state [Destroy] left it. *)
Definition Destroy (env : DestroyEnv) (name : string) (s : t)
    : Outcome (option error * t) :=
  match s !! name with
  | None => Returns (None, s)
  | Some b =>
    match Destroy env b with
    | Blocks => Blocks
    | Panics => Panics
    | Returns (Some e, b') => Returns (Some e, <[name := b']> s)
    | Returns (None, _) => Returns (None, delete name s)
    end
  end.

End Store.

(** ** onionbox.go: requests, replies and the onionbox struct *)

Inductive Method : Type :=
| GET
| POST
| OtherMethod (m : string).

Record Request : Type := mkRequest {
  method : Method;
  Path : string;                   (* r.URL.Path *)
  Header : gmap string string;     (* r.Header *)
  Form : gmap string string        (* what r.FormValue reads *)
}.

Definition FormValue (r : Request) (key : string) : string :=
  default "" (Form r !! key).

(** [r.Header.Get] and [r.Header.Set]; the handlers use the one key
    ["filename"] on both sides, so its canonical form plays no role. *)
Definition Header_Get (r : Request) (key : string) : string :=
  default "" (Header r !! key).

Definition Header_Set (key value : string) (r : Request) : Request :=
  mkRequest (method r) (Path r) (<[key := value]> (Header r)) (Form r).

(** What a handler does to its [http.ResponseWriter], in order. *)
Inductive Event : Type :=
| HttpError (msg : string) (code : Z)                (* http.Error(w, msg, code) *)
| SetHeader (key value : string)                     (* w.Header().Set *)
| WriteBody (body : list byte) (res : option error)  (* w.Write(body) and its error *)
| ExecTemplate (name data : string) (res : option error). (* t.Execute(w, data) *)

Record onionbox : Type := mkOnionbox {
  version : string;
  port : Z;
  debug : bool;
  store : option Store.t;          (* *OnionStore; None is nil *)
  maxFormMemory : Z;
  torVersion3 : bool;
  onionURL : string;
  chunkSize : Z
}.

Definition with_store (s : Store.t) (ob : onionbox) : onionbox :=
  mkOnionbox (version ob) (port ob) (debug ob) (Some s) (maxFormMemory ob)
    (torVersion3 ob) (onionURL ob) (chunkSize ob).

(** What the system answers during one request. *)
Record HandlerEnv : Type := mkHandlerEnv {
  time_Now : Time;
  createCSRF : string * option error;
  template_Parse : option error;
  template_Execute : option error;
  ParseMultipartForm : option error;
  pipeline : Outcome (list byte);   (* wg.Wait(), then zipBuffer.Bytes() *)
  zWriter_Close : option error;
  SillyName : string;               (* strings.ToLower(randomdata.SillyName()) *)
  mlock_oBuffer : option error;     (* syscall.Mlock(oBuffer.Bytes) *)
  mlock_decrypted : option error;   (* syscall.Mlock(decryptedBytes) *)
  destroy_env : DestroyEnv;         (* for the one Destroy the request may run *)
  client_Write : option error       (* w.Write *)
}.

Definition StatusNotFound : Z := 404.
Definition StatusUnauthorized : Z := 401.
Definition StatusMethodNotAllowed : Z := 405.
Definition StatusInternalServerError : Z := 500.

(** [downloadURLreg.FindStringSubmatch(p) != nil] for the pattern
    [((?:[a-z][a-z]+))]: [p] holds two lowercase letters in a row. *)
Definition is_lower (c : ascii) : bool :=
  let n := N_of_ascii c in ((97 <=? n) && (n <=? 122))%N.

Fixpoint downloadURLreg_matches (p : string) : bool :=
  match p with
  | String c1 ((String c2 _) as rest) =>
      (is_lower c1 && is_lower c2) || downloadURLreg_matches rest
  | _ => false
  end.

(** [p[1:]]; slicing the empty string at 1 panics. *)
Definition tail1 (p : string) : option string :=
  match p with
  | EmptyString => None
  | String _ rest => Some rest
  end.

(** Shared by the two GET pages: createCSRF, template parse, template execute. *)
Definition render_page (env : HandlerEnv) (tmpl : string) : list Event :=
  let page_error :=
    HttpError "Error displaying web page, please try refreshing."
      StatusInternalServerError in
  match createCSRF env with
  | (_, Some _) => [page_error]
  | (csrf, None) =>
    match template_Parse env with
    | Some _ => [page_error]
    | None =>
      match template_Execute env with
      | Some e => [ExecTemplate tmpl csrf (Some e); page_error]
      | None => [ExecTemplate tmpl csrf None]
      end
    end
  end.

(** The tail common to both download paths: the two headers, then the body. *)
Definition send_zip (env : HandlerEnv) (name : string) (body : list byte)
    : list Event :=
  [SetHeader "Content-Type" "application/zip";
   SetHeader "Content-Disposition" ("attachment; filename=" +:+ name +:+ ".zip");
   WriteBody body (client_Write env)]
  ++ match client_Write env with
     | Some _ => [HttpError "Error writing to client." StatusInternalServerError]
     | None => []
     end.

(** [oBuffer.DownloadLimit > 0 && oBuffer.Downloads >= oBuffer.DownloadLimit],
    the test before a download. *)
Definition limit_reached (b : OnionBuffer) : bool :=
  (0 <? DownloadLimit b) && (DownloadLimit b <=? Downloads b).

(** ** onionbox.download *)

Section Handlers.
Context `{Collaborators}.

(** [oBuffer.Downloads++]. *)
Definition count_download (b : OnionBuffer) : OnionBuffer :=
  with_Downloads (wrap64 (Downloads b + 1)) b.

(** [oBuffer.Downloads >= oBuffer.DownloadLimit], the test after the count. *)
Definition at_limit (b : OnionBuffer) : bool :=
  DownloadLimit b <=? Downloads b.

(** The branch taken when the limit is already reached: the store destroys
    the buffer, whatever that returns is logged, the client gets 401. *)
Definition refuse_limit (env : HandlerEnv) (ob : onionbox) (s : Store.t)
    (name : string) : Outcome (onionbox * list Event) :=
  match Store.Destroy (destroy_env env) name s with
  | Blocks => Blocks
  | Panics => Panics
  | Returns (_, s') =>
      Returns (with_store s' ob,
               [HttpError "Download limit reached." StatusUnauthorized])
  end.

Definition download_get (env : HandlerEnv) (ob : onionbox) (s : Store.t)
    (name : string) (b : OnionBuffer) : Outcome (onionbox * list Event) :=
  if Encrypted b then Returns (ob, render_page env "download_encrypted")
  else if limit_reached b then refuse_limit env ob s name
  else
    match ValidateChecksum b with
    | (_, Some _) =>
        Returns (ob, [HttpError "Error validating checksum." StatusInternalServerError])
    | (false, None) =>
        Returns (ob, [HttpError "Invalid checksum." StatusInternalServerError])
    | (true, None) =>
        let b1 := count_download b in
        if at_limit b1 then
          match Destroy (destroy_env env) b1 with
          | Blocks => Blocks
          | Panics => Panics
          | Returns (_, b2) =>
              Returns (with_store (<[name := b2]> s) ob,
                       send_zip env (Name b2) (Bytes b2))
          end
        else
          Returns (with_store (<[name := b1]> s) ob,
                   send_zip env (Name b1) (Bytes b1))
    end.

Definition download_post (env : HandlerEnv) (ob : onionbox) (s : Store.t)
    (name : string) (b : OnionBuffer) (r : Request)
    : Outcome (onionbox * list Event) :=
  if limit_reached b then refuse_limit env ob s name
  else
    match ValidateChecksum b with
    | (_, Some _) =>
        Returns (ob, [HttpError "Error validating checksum." StatusInternalServerError])
    | (false, None) =>
        Returns (ob, [HttpError "Invalid checksum." StatusInternalServerError])
    | (true, None) =>
        match Decrypt (Bytes b) (FormValue r "password") with
        | (_, Some _) =>
            Returns (ob, [HttpError "Error decrypting buffer." StatusInternalServerError])
        | (decryptedBytes, None) =>
            let b1 := count_download b in
            let s1 := <[name := b1]> s in
            if at_limit b1 then
              match Store.Destroy (destroy_env env) name s1 with
              | Blocks => Blocks
              | Panics => Panics
              | Returns (_, s2) =>
                  Returns (with_store s2 ob, send_zip env (Name b1) decryptedBytes)
              end
            else
              Returns (with_store s1 ob, send_zip env (Name b1) decryptedBytes)
        end
    end.

(** [ob.store.Get] on a nil store, or a field read through the nil buffer it
    returns for an unknown name, panics. *)
Definition download (env : HandlerEnv) (ob : onionbox) (r : Request)
    : Outcome (onionbox * list Event) :=
  match method r with
  | GET =>
      match store ob with
      | None => Panics
      | Some s =>
        match Store.Get (Header_Get r "filename") s with
        | None => Panics
        | Some b => download_get env ob s (Header_Get r "filename") b
        end
      end
  | POST =>
      match store ob with
      | None => Panics
      | Some s =>
        match Store.Get (Header_Get r "filename") s with
        | None => Panics
        | Some b => download_post env ob s (Header_Get r "filename") b r
        end
      end
  | OtherMethod _ =>
      Returns (ob, [HttpError "Invalid HTTP Method." StatusMethodNotAllowed])
  end.

(** What a download releases: the content on the GET path, its decryption
    under the submitted passphrase on the POST path. *)
Definition released (r : Request) (b : OnionBuffer) : list byte :=
  match method r with
  | POST => fst (Decrypt (Bytes b) (FormValue r "password"))
  | _ => Bytes b
  end.

(** ** onionbox.upload *)

(** [syscall.Mlock(oBuffer.Bytes)]: on success the memory is pinned; a failure
    is logged and the handler goes on. *)
Definition mlock_Bytes (res : option error) (b : OnionBuffer) : OnionBuffer :=
  match res with
  | None => with_Pinned true b
  | Some _ => b
  end.

(** Content, pin, flag and checksum of the new buffer.  [inl] is the reply of
    an early return. *)
Definition upload_content (env : HandlerEnv) (r : Request) (zip : list byte)
    (oBuffer : OnionBuffer) : Event + OnionBuffer :=
  if String.eqb (FormValue r "password_enabled") "on" then
    match Encrypt zip (FormValue r "password") with
    | (_, Some _) =>
        inl (HttpError "Error encrypting buffer." StatusInternalServerError)
    | (enc, None) =>
        let b1 := with_Encrypted true
                    (mlock_Bytes (mlock_oBuffer env) (with_Bytes enc oBuffer)) in
        match GetChecksum b1 with
        | (_, Some _) =>
            inl (HttpError "Error getting checksum." StatusInternalServerError)
        | (chksm, None) => inr (with_Checksum chksm b1)
        end
    end
  else
    let b1 := mlock_Bytes (mlock_oBuffer env) (with_Bytes zip oBuffer) in
    match GetChecksum b1 with
    | (_, Some _) =>
        inl (HttpError "Error getting checksum." StatusInternalServerError)
    | (chksm, None) => inr (with_Checksum chksm b1)
    end.

Definition upload_limit (r : Request) (oBuffer : OnionBuffer)
    : Event + OnionBuffer :=
  if String.eqb (FormValue r "limit_downloads") "on" then
    match Atoi (FormValue r "download_limit") with
    | (_, Some _) =>
        inl (HttpError "Error getting expiration time." StatusInternalServerError)
    | (limit, None) => inr (with_DownloadLimit limit oBuffer)
    end
  else inr oBuffer.

Definition upload_expire (env : HandlerEnv) (r : Request) (oBuffer : OnionBuffer)
    : Event + OnionBuffer :=
  if String.eqb (FormValue r "expire") "on" then
    match SetExpiration (FormValue r "expiration_time" +:+ "m") (time_Now env)
            oBuffer with
    | (_, Some _) =>
        inl (HttpError "Error parsing expiration time." StatusInternalServerError)
    | (b1, None) => inr b1
    end
  else inr oBuffer.

Definition upload_message (ob : onionbox) (oBuffer : OnionBuffer) : list byte :=
  list_byte_of_string
    ("Files uploaded. Please share this link with your recipients: http://"
     +:+ onionURL ob +:+ ".onion/" +:+ Name oBuffer).

(** [ob.store.Add(oBuffer)], then [oBuffer.Destroy()] on the object that was
    just registered, then the link is written to the client. *)
Definition upload_register (env : HandlerEnv) (ob : onionbox)
    (oBuffer : OnionBuffer) : Outcome (onionbox * list Event) :=
  match store ob with
  | None => Panics
  | Some s =>
    match Store.Add oBuffer s with
    | (_, Some _) =>
        Returns (ob, [HttpError "Error adding file to store." StatusInternalServerError])
    | (s1, None) =>
      match Destroy (destroy_env env) oBuffer with
      | Blocks => Blocks
      | Panics => Panics
      | Returns (_, b') =>
          Returns (with_store (<[Name oBuffer := b']> s1) ob,
                   WriteBody (upload_message ob b') (client_Write env)
                   :: match client_Write env with
                      | Some _ => [HttpError "Error writing to client."
                                     StatusInternalServerError]
                      | None => []
                      end)
      end
    end
  end.

Definition upload_post (env : HandlerEnv) (ob : onionbox) (r : Request)
    : Outcome (onionbox * list Event) :=
  match ParseMultipartForm env with
  | Some _ => Returns (ob, [HttpError "Error parsing files." StatusInternalServerError])
  | None =>
    match pipeline env with
    | Blocks => Blocks
    | Panics => Panics
    | Returns zip =>
      match upload_content env r zip (newOnionBuffer (SillyName env) (chunkSize ob)) with
      | inl ev => Returns (ob, [ev])
      | inr b1 =>
        match upload_limit r b1 with
        | inl ev => Returns (ob, [ev])
        | inr b2 =>
          match upload_expire env r b2 with
          | inl ev => Returns (ob, [ev])
          | inr b3 => upload_register env ob b3
          end
        end
      end
    end
  end.

Definition upload (env : HandlerEnv) (ob : onionbox) (r : Request)
    : Outcome (onionbox * list Event) :=
  match method r with
  | GET => Returns (ob, render_page env "upload")
  | POST => upload_post env ob r
  | OtherMethod _ =>
      Returns (ob, [HttpError "Invalid HTTP Method." StatusMethodNotAllowed])
  end.

(** ** onionbox.router *)

Definition router (env : HandlerEnv) (ob : onionbox) (r : Request)
    : Outcome (onionbox * list Event) :=
  if String.eqb (Path r) "/" then upload env ob r
  else if downloadURLreg_matches (Path r) then
    match store ob with
    | Some s =>
      match tail1 (Path r) with
      | None => Panics
      | Some name =>
        if Store.Exists name s
        then download env ob (Header_Set "filename" name r)
        else Returns (ob, [])
      end
    | None => Returns (ob, [HttpError "File not found" StatusNotFound])
    end
  else Returns (ob, [HttpError "404 page not found" StatusNotFound]).

End Handlers.

(** Requests handled one after the other, each with its own environment; the
    replies are collected in order. *)
Fixpoint serve `{Collaborators} (reqs : list (HandlerEnv * Request))
    (ob : onionbox) : Outcome (onionbox * list (list Event)) :=
  match reqs with
  | [] => Returns (ob, [])
  | (env, r) :: rest =>
    match router env ob r with
    | Blocks => Blocks
    | Panics => Panics
    | Returns (ob1, reply) =>
      match serve rest ob1 with
      | Blocks => Blocks
      | Panics => Panics
      | Returns (ob2, replies) => Returns (ob2, reply :: replies)
      end
    end
  end.

(** ** onionbox.writeBytesByChunk

    [reader] is a [bufio.Reader] over the uploaded file and [bufWriter] an
    entry of the zip writer.  What the successive [reader.Read(chunk)] calls
    deliver is given as a script: the bytes put in [chunk[:count]] and the
    error of each call, in order.  A script that ends before a call returns an
    error leaves the loop reading ([ChunkReading]). *)

Record ChunkEnv : Type := mkChunkEnv {
  chunk_Mlock : option error;                       (* syscall.Mlock(chunk) *)
  chunk_reads : list (list byte * option error);    (* reader.Read(chunk), call by call *)
  chunk_Write : nat -> option error                 (* bufWriter.Write at iteration i *)
}.

(** [writes] are the slices handed to [bufWriter.Write] with success, in
    order. *)
Inductive ChunkEnd : Type :=
| ChunkReturns (err : option error) (writes : list (list byte))
| ChunkPanics (writes : list (list byte))
| ChunkReading (writes : list (list byte)).

(** The [for] loop.  [chunk[:count]] panics when [count] exceeds the length of
    [chunk]; the bytes that come with an error are never looked at. *)
Fixpoint chunk_loop (size : Z) (reads : list (list byte * option error))
    (write : nat -> option error) (i : nat) (writes : list (list byte))
    : ChunkEnd :=
  match reads with
  | [] => ChunkReading writes
  | (_, Some e) :: _ =>
      if is_EOF e then ChunkReturns None writes
      else ChunkReturns (Some e) writes
  | (data, None) :: rest =>
      if size <? Z.of_nat (length data) then ChunkPanics writes
      else
        match write i with
        | Some e => ChunkReturns (Some e) writes
        | None => chunk_loop size rest write (S i) (writes ++ [data])
        end
  end.

(** [make([]byte, ob.chunkSize)] panics on a negative size. *)
Definition writeBytesByChunk (env : ChunkEnv) (ob : onionbox) : ChunkEnd :=
  if chunkSize ob <? 0 then ChunkPanics []
  else
    match chunk_Mlock env with
    | Some e => ChunkReturns (Some e) []
    | None => chunk_loop (chunkSize ob) (chunk_reads env) (chunk_Write env) 0 []
    end.

Definition chunk_writes (r : ChunkEnd) : list (list byte) :=
  match r with
  | ChunkReturns _ w => w
  | ChunkPanics w => w
  | ChunkReading w => w
  end.

(** ** The upload pipeline: upload's queue and writeFilesToBuffers

    Two parties share the channel [uploadQueue], the WaitGroup and the zip
    writer: the goroutine running [writeFilesToBuffers] (the worker) and
    [upload] itself (the handler), which has enqueued every file before it
    starts the worker.  Each party is a step function; a step of the pipeline
    is a step of either. *)

Module Pipeline.

Record FileHeader : Type := mkFileHeader {
  Filename : string;
  content : list byte;
  (* the first error of Open, w.Create, writeBytesByChunk, w.Flush, if any *)
  io_fault : option error
}.

Inductive Worker : Type :=
| Running
| Returned (e : error)      (* writeFilesToBuffers returned err *)
| Panicked.

(** Where [upload] stands: at [wg.Wait()], at [close(uploadQueue)], past it. *)
Inductive Handler : Type :=
| Waiting
| Closing
| Finished.

Record State : Type := mkState {
  queue : list FileHeader;             (* what the channel buffers *)
  closed : bool;                       (* close(uploadQueue) has run *)
  wg : Z;                              (* the WaitGroup counter *)
  archive : list (string * list byte); (* entries written through the zip writer *)
  worker : Worker;
  handler : Handler
}.

Inductive Label : Type :=
| Wrote (f : FileHeader)    (* a file was received and written to the archive *)
| Failed (e : error)        (* the worker returned an error *)
| Done                      (* wg.Done(): the completion signal *)
| Crash                     (* the worker panicked *)
| WaitReturns               (* wg.Wait() returned *)
| Close.                    (* close(uploadQueue) *)

Definition entry_of (f : FileHeader) : string * list byte :=
  (Filename f, content f).

(** The channel is made with capacity 100 and filled before the worker
    starts: the 101st send never returns. *)
Definition start (files : list FileHeader) : Outcome State :=
  if (length files <=? 100)%nat
  then Returns (mkState files false 1 [] Running Waiting)
  else Blocks.

(** One iteration of the [for { select { ... } }] of writeFilesToBuffers.
    The receive case is ready when the queue holds a file or is closed;
    [default] runs otherwise. *)
Definition worker_step (s : State) : option (Label * State) :=
  match worker s with
  | Running =>
    match queue s with
    | f :: q =>
      match io_fault f with
      | Some e =>
          Some (Failed e,
                mkState q (closed s) (wg s) (archive s) (Returned e) (handler s))
      | None =>
          Some (Wrote f,
                mkState q (closed s) (wg s) (archive s ++ [entry_of f])
                  Running (handler s))
      end
    | [] =>
      if closed s then
        (* a closed channel delivers nil; fileHeader.Open() dereferences it *)
        Some (Crash, mkState [] true (wg s) (archive s) Panicked (handler s))
      else if 1 <=? wg s then
        (* default: len(uploadQueue) == 0, so wg.Done() *)
        Some (Done,
              mkState [] false (wg s - 1) (archive s) Running (handler s))
      else
        (* wg.Done() on a counter that would go negative *)
        Some (Crash, mkState [] false (wg s) (archive s) Panicked (handler s))
    end
  | Returned _ => None
  | Panicked => None
  end.

(** [wg.Wait()], then [close(uploadQueue)].  A panic of the worker ends the
    process. *)
Definition handler_step (s : State) : option (Label * State) :=
  match worker s with
  | Panicked => None
  | _ =>
    match handler s with
    | Waiting =>
        if wg s =? 0
        then Some (WaitReturns,
                   mkState (queue s) (closed s) (wg s) (archive s) (worker s) Closing)
        else None
    | Closing =>
        Some (Close,
              mkState (queue s) true (wg s) (archive s) (worker s) Finished)
    | Finished => None
    end
  end.

Inductive step (s : State) (l : Label) (s' : State) : Prop :=
| step_worker : worker_step s = Some (l, s') -> step s l s'
| step_handler : handler_step s = Some (l, s') -> step s l s'.

(** [run s tr s']: the pipeline goes from [s] to [s'] doing [tr], oldest
    step first. *)
Inductive run : State -> list Label -> State -> Prop :=
| run_nil s : run s [] s
| run_snoc s tr s1 l s2 : run s tr s1 -> step s1 l s2 -> run s (tr ++ [l]) s2.

(** The worker alone, [n] iterations. *)
Fixpoint worker_steps (n : nat) (s : State) : list Label * State :=
  match n with
  | O => ([], s)
  | S n' =>
    match worker_step s with
    | None => ([], s)
    | Some (l, s1) =>
        let (tr, s2) := worker_steps n' s1 in (l :: tr, s2)
    end
  end.

End Pipeline.

(** ** Environments and sample data used by the statements below *)

(** No system call and no library writer fails during [Destroy]. *)
Definition DestroyEnv_ok (env : DestroyEnv) : Prop :=
  mlock_chunk env = None /\ zip_create env = None /\
  (forall i, read_fault env i = None) /\
  (forall i, write_fault env i = None) /\
  munlock_bytes env = None.

(** The reply of a download that went through: two headers and the body. *)
Definition zip_reply (name : string) (body : list byte) : list Event :=
  [SetHeader "Content-Type" "application/zip";
   SetHeader "Content-Disposition" ("attachment; filename=" +:+ name +:+ ".zip");
   WriteBody body None].

(** The reply of the limit branch. *)
Definition limit_reply : list Event :=
  [HttpError "Download limit reached." StatusUnauthorized].

Definition releases_bytes (reply : list Event) : Prop :=
  exists body res, In (WriteBody body res) reply.

(** A GET of [name] during which no system call fails. *)
Definition calm_get (name : string) (er : HandlerEnv * Request) : Prop :=
  method (snd er) = GET /\ Path (snd er) = String "/" name /\
  DestroyEnv_ok (destroy_env (fst er)) /\ client_Write (fst er) = None.

(** The same for a POST carrying [pass]. *)
Definition calm_post (name pass : string) (er : HandlerEnv * Request) : Prop :=
  method (snd er) = POST /\ Path (snd er) = String "/" name /\
  FormValue (snd er) "password" = pass /\
  DestroyEnv_ok (destroy_env (fst er)) /\ client_Write (fst er) = None.

(** [ob] serves, under [name], the buffer [b] as [d] counted downloads have
    left it: unlocked, with the content, digest, flag and limit of [b]; the
    rest of the store is that of [s]. *)
Definition serving (name : string) (s : Store.t) (b : OnionBuffer) (d : Z)
    (ob : onionbox) : Prop :=
  exists (s' : Store.t) (b' : OnionBuffer),
    store ob = Some s' /\ s' !! name = Some b' /\
    delete name s' = delete name s /\
    Bytes b' = Bytes b /\ Checksum b' = Checksum b /\ Name b' = Name b /\
    Encrypted b' = Encrypted b /\ DownloadLimit b' = DownloadLimit b /\
    Downloads b' = d /\ Mutex b' = false.

(** The buffer registered under [name], if there is one, has used up its
    download limit. *)
Definition exhausted (name : string) (ob : onionbox) : Prop :=
  exists s : Store.t,
    store ob = Some s /\
    forall b, s !! name = Some b -> limit_reached b = true.

Module Sample.

(** Stand-ins for the absent collaborators, enough to run the handlers: the
    digest is the content read as a string; the cipher leaves the bytes as
    they are and opens them under the passphrase ["secret123"] only. *)
Definition collaborators : Collaborators :=
  {| compute_digest := fun bs => (string_of_list_byte bs, None);
     Encrypt := fun bs _ => (bs, None);
     Decrypt := fun bs pass =>
       if String.eqb pass "secret123" then (bs, None)
       else ([], Some (ErrOther "message authentication failed"));
     expiry_of := fun _ now => (now, None);
     Atoi := fun _ => (1, None) |}.

Definition quiet : DestroyEnv :=
  mkDestroyEnv None None (fun _ => None) (fun _ => None) None.

Definition munlock_fails : DestroyEnv :=
  mkDestroyEnv None None (fun _ => None) (fun _ => None) (Some (Errno 12)).

Definition secret : list byte := ["a"; "b"; "c"]%byte.

Definition calm : HandlerEnv :=
  mkHandlerEnv (mkTime 63900000000 0) ("token", None) None None None
    (Returns secret) None "sillyname" None None quiet None.

Definition box (s : Store.t) : onionbox :=
  mkOnionbox "v0.1.0" 80 false (Some s) 512 true "onionurl" 1024.

Definition request (m : Method) (path : string) : Request :=
  mkRequest m path ∅ ∅.

(** The POST of the passphrase form, with the right passphrase. *)
Definition unlock (path : string) : Request :=
  mkRequest POST path ∅ {[ "password" := "secret123" ]}.

(** A buffer as upload leaves it when the form sets neither password nor
    expiry, with download limit [limit]. *)
Definition plain (limit : Z) : OnionBuffer :=
  mkOnionBuffer false "sillyname" secret "abc" false 0 limit false
    zeroTime zeroTime 1024 true.

(** The same, passphrase-protected. *)
Definition protected (limit : Z) : OnionBuffer :=
  mkOnionBuffer false "sillyname" secret "abc" true 0 limit false
    zeroTime zeroTime 1024 true.

(** [plain limit] after one content byte was changed in memory. *)
Definition tampered (limit : Z) : OnionBuffer :=
  mkOnionBuffer false "sillyname" ["a"; "b"; "d"]%byte "abc" false 0 limit
    false zeroTime zeroTime 1024 true.

(** A store holding [b] under its name, and nothing else. *)
Definition holding (b : OnionBuffer) : Store.t := {[ Name b := b ]}.

(** A reader that delivers ["ab"], then ["c"], then EOF together with a
    stray byte. *)
Definition three_bytes : ChunkEnv :=
  mkChunkEnv None
    [(["a"; "b"]%byte, None); (["c"]%byte, None); (["z"]%byte, Some EOF)]
    (fun _ => None).

(** A file whose Open fails. *)
Definition file_bad : Pipeline.FileHeader :=
  Pipeline.mkFileHeader "b.txt" [] (Some (ErrOther "open b.txt")).


Definition file_a : Pipeline.FileHeader :=
  Pipeline.mkFileHeader "a.txt" ["x"; "y"]%byte None.

(** The pipeline as upload leaves it before it starts the worker. *)
Definition queued (files : list Pipeline.FileHeader) : Pipeline.State :=
  Pipeline.mkState files false 1 [] Pipeline.Running Pipeline.Waiting.

(** [queued [file_a; file_bad]] once the worker has written [file_a]. *)
Definition after_file_a : Pipeline.State :=
  Pipeline.mkState [file_bad] false 1 [Pipeline.entry_of file_a]
    Pipeline.Running Pipeline.Waiting.

(** [queued []] once the worker has signalled, and after its next iteration. *)
Definition signalled : Pipeline.State :=
  Pipeline.mkState [] false 0 [] Pipeline.Running Pipeline.Waiting.

Definition crashed : Pipeline.State :=
  Pipeline.mkState [] false 0 [] Pipeline.Panicked Pipeline.Waiting.

End Sample.

(** * Properties *)

(** ** IsExpired *)

(** What [IsExpired] computes: the current time is at or past [ExpiresAt].
    No other field is read. *)
Lemma IsExpired_at_or_past (b : OnionBuffer) (now : Time) :
  IsExpired b now = at_or_past now (ExpiresAt b).
Proof.
  unfold IsExpired, After, at_or_past.
  destruct (ExpiresAt b) as [es en], now as [ns nn]; simpl.
  destruct (Z.ltb_spec ns es), (Z.ltb_spec es ns), (Z.eqb_spec es ns),
    (Z.ltb_spec nn en), (Z.leb_spec en nn); simpl; try reflexivity; lia.
Qed.

(** C1. A buffer whose expiration was never set holds the zero [time.Time] in
    [ExpiresAt]; [IsExpired] answers [true] for it at every instant that is
    not before the zero time, where the claim wants [false]. *)
Theorem IsExpired_when_never_set (b : OnionBuffer) (now : Time) :
  ExpiresAt b = zeroTime -> 0 <= sec now -> 0 <= nsec now ->
  IsExpired b now = true.
Proof.
  intros Hz Hs Hn. rewrite IsExpired_at_or_past, Hz.
  unfold at_or_past, zeroTime; simpl.
  destruct (Z.ltb_spec 0 (sec now)) as [|Hle]; [reflexivity|].
  assert (sec now = 0) as -> by lia. simpl.
  apply Z.leb_le. assumption.
Qed.

Lemma IsExpired_when_never_set_witness :
  IsExpired (newOnionBuffer "sillyname" 1024) (mkTime 63900000000 0) = true.
Proof.
  apply IsExpired_when_never_set; [reflexivity | simpl; lia | simpl; lia].
Defined.

(** ** Destroy *)

Lemma with_Mutex_Bytes m b : Bytes (with_Mutex m b) = Bytes b.
Proof. reflexivity. Qed.

Lemma Lock_free b : Mutex b = false -> Lock b = Returns (with_Mutex true b).
Proof. unfold Lock. intros ->. reflexivity. Qed.

Lemma Lock_held b : Mutex b = true -> Lock b = Blocks.
Proof. unfold Lock. intros ->. reflexivity. Qed.

(** With no fault the loop runs once per content byte and ends on EOF; the
    ["0"] bytes go to the scratch zip entry. *)
Lemma wipe_loop_ok env input :
  DestroyEnv_ok env ->
  forall i scratch,
    wipe_loop env input i scratch
    = LoopBreak EOF (scratch ++ replicate (length input) "0"%byte).
Proof.
  intros (_ & Hc & Hr & Hw & _).
  induction input as [|x rest IH]; intros i scratch; simpl.
  - rewrite Hr, app_nil_r. reflexivity.
  - rewrite Hr, Hc, Hw, IH, <- app_assoc. reflexivity.
Qed.

(** Every return of [Destroy] hands back the buffer it locked, at most
    unpinned and unlocked: the other fields are as before. *)
Lemma Destroy_returns env b err b' :
  Destroy env b = Returns (err, b') ->
  Mutex b = false /\
  (b' = with_Mutex true b /\ err <> None
   \/ b' = Unlock (with_Pinned false (with_Mutex true b)) /\ err = None).
Proof.
  unfold Destroy, Lock.
  destruct (Mutex b) eqn:Hm; [discriminate|].
  intros Hd. split; [reflexivity|].
  destruct (mlock_chunk env); [injection Hd as <- <-; left; split; congruence|].
  destruct (wipe_loop env _ 0 []) as [e sc|e sc|]; [..|discriminate].
  - destruct (is_EOF e).
    + destruct (munlock_bytes env); injection Hd as <- <-;
        [left|right]; split; congruence.
    + injection Hd as <- <-. left; split; congruence.
  - injection Hd as <- <-. left; split; congruence.
Qed.

Lemma Destroy_ok env b :
  DestroyEnv_ok env -> Mutex b = false ->
  Destroy env b = Returns (None, Unlock (with_Pinned false (with_Mutex true b))).
Proof.
  intros Hok Hm. unfold Destroy. rewrite (Lock_free _ Hm).
  pose proof Hok as (-> & _ & _ & _ & Hu).
  rewrite (wipe_loop_ok _ _ Hok). simpl. rewrite Hu. reflexivity.
Qed.

(** C2. When [Destroy] returns without error the content is what it was
    before the call: no byte was overwritten and nothing was truncated. *)
Theorem Destroy_keeps_content (env : DestroyEnv) (b b' : OnionBuffer) :
  Destroy env b = Returns (None, b') -> Bytes b' = Bytes b.
Proof.
  intros Hd. apply Destroy_returns in Hd as (_ & [[-> _] | [-> _]]); reflexivity.
Qed.

Lemma Destroy_keeps_content_witness :
  exists b',
    Destroy Sample.quiet (Sample.plain 0) = Returns (None, b') /\
    Bytes b' = ["a"; "b"; "c"]%byte.
Proof.
  eexists. split; [reflexivity|].
  apply (Destroy_keeps_content Sample.quiet (Sample.plain 0)). reflexivity.
Defined.

(** C5. Two calls of [Destroy] in a row, no system call failing: both return
    nil and the second changes nothing, but the content after both is the
    content before the first, not the empty slice. *)
Theorem Destroy_twice (env1 env2 : DestroyEnv) (b : OnionBuffer) :
  DestroyEnv_ok env1 -> DestroyEnv_ok env2 -> Mutex b = false ->
  exists b1,
    Destroy env1 b = Returns (None, b1) /\
    Destroy env2 b1 = Returns (None, b1) /\
    Bytes b1 = Bytes b.
Proof.
  intros H1 H2 Hm.
  exists (Unlock (with_Pinned false (with_Mutex true b))).
  split; [apply Destroy_ok; assumption|].
  split; [|reflexivity].
  rewrite Destroy_ok; [reflexivity | assumption | reflexivity].
Qed.

Lemma Destroy_twice_witness :
  exists b1,
    Destroy Sample.quiet (Sample.plain 0) = Returns (None, b1) /\
    Destroy Sample.quiet b1 = Returns (None, b1) /\
    Bytes b1 = Bytes (Sample.plain 0).
Proof.
  apply Destroy_twice; [repeat split | repeat split | reflexivity].
Defined.

(** The four ways [Destroy] returns an error, each leaving the mutex held. *)
Lemma Destroy_mlock_fails env b e :
  Mutex b = false -> mlock_chunk env = Some e ->
  Destroy env b = Returns (Some e, with_Mutex true b).
Proof.
  intros Hm He. unfold Destroy. rewrite (Lock_free _ Hm), He. reflexivity.
Qed.

Lemma Destroy_write_fails env b x rest e :
  Mutex b = false -> mlock_chunk env = None -> zip_create env = None ->
  read_fault env 0%nat = None -> Bytes b = x :: rest ->
  write_fault env 0%nat = Some e ->
  Destroy env b = Returns (Some e, with_Mutex true b).
Proof.
  intros Hm Hl Hc Hr Hb Hw. unfold Destroy.
  rewrite (Lock_free _ Hm), Hl, with_Mutex_Bytes, Hb. simpl.
  rewrite Hr, Hc, Hw. reflexivity.
Qed.

Lemma Destroy_read_fails env b e :
  Mutex b = false -> mlock_chunk env = None ->
  read_fault env 0%nat = Some e -> is_EOF e = false ->
  Destroy env b = Returns (Some e, with_Mutex true b).
Proof.
  intros Hm Hl Hr He. unfold Destroy.
  rewrite (Lock_free _ Hm), Hl.
  destruct (Bytes (with_Mutex true b)); simpl; rewrite Hr, He; reflexivity.
Qed.

Lemma Destroy_munlock_fails env b e :
  Mutex b = false -> mlock_chunk env = None -> zip_create env = None ->
  (forall i, read_fault env i = None) -> (forall i, write_fault env i = None) ->
  munlock_bytes env = Some e ->
  Destroy env b = Returns (Some e, with_Mutex true b).
Proof.
  intros Hm Hl Hc Hr Hw Hu. unfold Destroy.
  rewrite (Lock_free _ Hm), Hl.
  assert (forall input i sc, exists sc',
             wipe_loop env input i sc = LoopBreak EOF sc') as Hloop.
  { induction input as [|x rest IH]; intros i sc; simpl.
    - rewrite Hr. eauto.
    - rewrite Hr, Hc, Hw. apply IH. }
  destruct (Hloop (Bytes (with_Mutex true b)) 0%nat []) as [sc' ->].
  simpl. rewrite Hu. reflexivity.
Qed.

(** C10. Whenever [Destroy] returns a non-nil error the buffer's mutex is
    still held: [Lock] on the buffer blocks, and so does every later
    [Destroy], whatever the system answers then. *)
Theorem Destroy_error_keeps_mutex (env : DestroyEnv) (b b' : OnionBuffer)
    (e : error) :
  Destroy env b = Returns (Some e, b') ->
  Mutex b' = true /\ Lock b' = Blocks /\
  forall env', Destroy env' b' = Blocks.
Proof.
  intros Hd.
  apply Destroy_returns in Hd as (_ & [[-> _] | [_ Hnone]]); [|discriminate].
  split; [reflexivity|]. split; [reflexivity|].
  intros env'. reflexivity.
Qed.

Lemma Destroy_error_keeps_mutex_witness :
  Destroy Sample.munlock_fails (Sample.plain 0)
  = Returns (Some (Errno 12), with_Mutex true (Sample.plain 0)) /\
  Mutex (with_Mutex true (Sample.plain 0)) = true /\
  Lock (with_Mutex true (Sample.plain 0)) = Blocks /\
  forall env', Destroy env' (with_Mutex true (Sample.plain 0)) = Blocks.
Proof.
  split; [reflexivity|].
  apply (Destroy_error_keeps_mutex Sample.munlock_fails (Sample.plain 0) _
           (Errno 12)).
  reflexivity.
Defined.

(** ** router and download *)

Section HandlerProperties.
Context `{Collaborators}.

(** C9. A request for a name that passes the URL pattern and is not in the
    store gets no reply from [router]: the handler returns without writing
    anything, so the client is not told NotFound. *)
Theorem router_unknown_name_writes_nothing (env : HandlerEnv) (ob : onionbox)
    (r : Request) (s : Store.t) (name : string) :
  store ob = Some s ->
  downloadURLreg_matches (Path r) = true ->
  tail1 (Path r) = Some name ->
  s !! name = None ->
  router env ob r = Returns (ob, []).
Proof.
  intros Hs Hm Ht Hn. unfold router.
  destruct (String.eqb_spec (Path r) "/") as [Heq|_].
  - rewrite Heq in Hm. discriminate.
  - rewrite Hm, Hs, Ht. unfold Store.Exists. rewrite Hn. reflexivity.
Qed.

(** What [ValidateChecksum] accepts: the digest recomputed over the content
    is the stored one. *)
Lemma ValidateChecksum_true b :
  ValidateChecksum b = (true, None) <->
  compute_digest (Bytes b) = (Checksum b, None).
Proof.
  unfold ValidateChecksum, GetChecksum.
  destruct (compute_digest (Bytes b)) as [c [e|]]; split; intros Hv;
    try discriminate.
  - injection Hv as Hv. apply String.eqb_eq in Hv. congruence.
  - injection Hv as ->. rewrite String.eqb_refl. reflexivity.
Qed.

Lemma not_releases_error msg code : ~ releases_bytes [HttpError msg code].
Proof.
  intros (body & res & [Hin | []]). discriminate.
Qed.

Lemma not_releases_page env tmpl : ~ releases_bytes (render_page env tmpl).
Proof.
  unfold render_page.
  destruct (createCSRF env) as [tok [e|]];
    [|destruct (template_Parse env); [|destruct (template_Execute env)]];
    intros (body & res & Hin); simpl in Hin;
    repeat (destruct Hin as [Hin | Hin]; [discriminate|]); destruct Hin.
Qed.

Lemma refuse_limit_reply env ob s name ob' reply :
  refuse_limit env ob s name = Returns (ob', reply) -> reply = limit_reply.
Proof.
  unfold refuse_limit.
  destruct (Store.Destroy _ name s) as [[err s']| |]; try discriminate.
  intros Hr. injection Hr as _ <-. reflexivity.
Qed.

Lemma send_zip_body env name body body' res :
  In (WriteBody body' res) (send_zip env name body) -> body' = body.
Proof.
  unfold send_zip. simpl.
  intros [Hin | [Hin | [Hin | Hin]]]; try discriminate.
  - congruence.
  - destruct (client_Write env); simpl in Hin;
      [destruct Hin as [Hin | []]; discriminate | destruct Hin].
Qed.

Lemma Destroy_returns_Bytes env b err b' :
  Destroy env b = Returns (err, b') -> Bytes b' = Bytes b /\ Name b' = Name b.
Proof.
  intros Hd.
  apply Destroy_returns in Hd as (_ & [[-> _] | [-> _]]); split; reflexivity.
Qed.

(** C7. On both download paths a body goes out only after
    [ValidateChecksum] accepted the buffer, that is, only when the digest
    recomputed over the current content equals the stored one, and the body
    is that content (GET) or its decryption (POST); when the digest differs,
    a download attempt (a POST, or a GET of an unencrypted buffer) is answered
    by a single HTTP error and no body is written. *)
Theorem download_validates_before_release (env : HandlerEnv) (ob ob' : onionbox)
    (r : Request) (s : Store.t) (b : OnionBuffer) (reply : list Event) :
  store ob = Some s ->
  s !! Header_Get r "filename" = Some b ->
  download env ob r = Returns (ob', reply) ->
  (forall body res, In (WriteBody body res) reply ->
     compute_digest (Bytes b) = (Checksum b, None) /\ body = released r b) /\
  (compute_digest (Bytes b) <> (Checksum b, None) ->
   (method r = GET -> Encrypted b = false) ->
   (exists msg code, reply = [HttpError msg code]) /\ ~ releases_bytes reply).
Proof.
  intros Hs Hb Hd.
  set (goal := (forall body res, In (WriteBody body res) reply ->
     compute_digest (Bytes b) = (Checksum b, None) /\ body = released r b) /\
    (compute_digest (Bytes b) <> (Checksum b, None) ->
     (method r = GET -> Encrypted b = false) ->
     (exists msg code, reply = [HttpError msg code]) /\ ~ releases_bytes reply)).
  assert (forall msg code, reply = [HttpError msg code] -> goal) as Herr.
  { intros msg code ->. split.
    - intros body res [Hin | []]. discriminate.
    - intros _ _. split; [eauto | apply not_releases_error]. }
  assert (forall name,
            ValidateChecksum b = (true, None) ->
            reply = send_zip env name (released r b) -> goal) as Hvalid.
  { intros name Hv ->. apply ValidateChecksum_true in Hv. split.
    - intros body res Hin. split; [assumption|].
      apply send_zip_body in Hin. assumption.
    - intros Hne. contradiction. }
  unfold download in Hd. rewrite Hs in Hd. unfold Store.Get in Hd.
  destruct (method r) eqn:Hm.
  - (* GET *)
    rewrite Hb in Hd. unfold download_get in Hd.
    destruct (Encrypted b) eqn:Henc.
    + injection Hd as _ <-. split.
      * intros body res Hin.
        destruct (not_releases_page env "download_encrypted"). red. eauto.
      * intros _ Hget. specialize (Hget eq_refl). discriminate.
    + destruct (limit_reached b).
      * apply refuse_limit_reply in Hd. apply (Herr _ _ Hd).
      * destruct (ValidateChecksum b) as [[|] [e|]] eqn:Hv;
          try (injection Hd as _ <-; eapply Herr; reflexivity).
        destruct (at_limit (count_download b)).
        -- destruct (Destroy _ (count_download b)) as [[err b2]| |] eqn:Hdes;
             try discriminate.
           apply Destroy_returns_Bytes in Hdes as [Hbytes Hname].
           injection Hd as _ <-. apply (Hvalid (Name b2) eq_refl).
           unfold released. rewrite Hm, Hbytes. reflexivity.
        -- injection Hd as _ <-. apply (Hvalid (Name (count_download b)) eq_refl).
           unfold released. rewrite Hm. reflexivity.
  - (* POST *)
    rewrite Hb in Hd. unfold download_post in Hd.
    destruct (limit_reached b).
    + apply refuse_limit_reply in Hd. apply (Herr _ _ Hd).
    + destruct (ValidateChecksum b) as [[|] [e|]] eqn:Hv;
        try (injection Hd as _ <-; eapply Herr; reflexivity).
      assert (released r b = fst (Decrypt (Bytes b) (FormValue r "password")))
        as Hrel by (unfold released; rewrite Hm; reflexivity).
      destruct (Decrypt (Bytes b) (FormValue r "password")) as [dec [e|]].
      * injection Hd as _ <-. eapply Herr. reflexivity.
      * simpl in Hrel.
        destruct (at_limit (count_download b)).
        -- destruct (Store.Destroy _ _ _) as [[err s2]| |]; try discriminate.
           injection Hd as _ <-.
           apply (Hvalid (Name (count_download b)) eq_refl).
           rewrite Hrel. reflexivity.
        -- injection Hd as _ <-.
           apply (Hvalid (Name (count_download b)) eq_refl).
           rewrite Hrel. reflexivity.
  - injection Hd as _ <-. eapply Herr. reflexivity.
Qed.

Lemma wrap64_small x : - 2 ^ 63 <= x < 2 ^ 63 -> wrap64 x = x.
Proof.
  intros Hx. unfold wrap64. rewrite Z.mod_small; lia.
Qed.

Lemma send_zip_ok env name body :
  client_Write env = None -> send_zip env name body = zip_reply name body.
Proof. unfold send_zip, zip_reply. intros ->. reflexivity. Qed.

Lemma Store_Destroy_ok env name (s : Store.t) b :
  s !! name = Some b -> Mutex b = false -> DestroyEnv_ok env ->
  Store.Destroy env name s = Returns (None, delete name s).
Proof.
  intros Hb Hm Hok. unfold Store.Destroy.
  rewrite Hb, (Destroy_ok _ _ Hok Hm). reflexivity.
Qed.

(** C3. A passphrase-protected buffer with [DownloadLimit = 0]: the first
    successful download already runs the store's [Destroy] on it, and the
    buffer is gone from the store when the handler returns. *)
Theorem unlimited_post_download_evicts (env : HandlerEnv) (ob : onionbox)
    (r : Request) (s : Store.t) (b : OnionBuffer) (dec : list byte) :
  store ob = Some s ->
  method r = POST ->
  s !! Header_Get r "filename" = Some b ->
  DownloadLimit b = 0 ->
  0 <= Downloads b < 2 ^ 63 - 1 ->
  Mutex b = false ->
  compute_digest (Bytes b) = (Checksum b, None) ->
  Decrypt (Bytes b) (FormValue r "password") = (dec, None) ->
  DestroyEnv_ok (destroy_env env) ->
  client_Write env = None ->
  download env ob r
  = Returns (with_store (delete (Header_Get r "filename") s) ob,
             zip_reply (Name b) dec).
Proof.
  intros Hs Hm Hb Hl Hd Hmu Hv Hdec Hok Hw.
  apply ValidateChecksum_true in Hv.
  unfold download. rewrite Hm, Hs. unfold Store.Get. rewrite Hb.
  unfold download_post.
  assert (limit_reached b = false) as ->
    by (unfold limit_reached; rewrite Hl; reflexivity).
  rewrite Hv, Hdec.
  assert (at_limit (count_download b) = true) as ->.
  { unfold at_limit, count_download. simpl. rewrite Hl, wrap64_small by lia.
    apply Z.leb_le. lia. }
  rewrite (Store_Destroy_ok _ _ _ (count_download b));
    [| apply lookup_insert_eq | assumption | assumption].
  rewrite delete_insert_eq, send_zip_ok by assumption. reflexivity.
Qed.


(** ** upload *)

(** The stages of upload before registration keep name and mutex of the new
    buffer; when [Mlock] succeeds the content leaves [upload_content] pinned. *)
Lemma upload_content_fields env r zip b0 b1 :
  upload_content env r zip b0 = inr b1 ->
  Name b1 = Name b0 /\ Mutex b1 = Mutex b0 /\
  (mlock_oBuffer env = None -> Pinned b1 = true).
Proof.
  unfold upload_content, GetChecksum, mlock_Bytes.
  destruct (String.eqb _ "on").
  - destruct (Encrypt zip _) as [enc [e|]]; [discriminate|].
    destruct (compute_digest _) as [c [e|]]; [discriminate|].
    intros Hb. injection Hb as <-.
    destruct (mlock_oBuffer env); repeat split; intros; discriminate.
  - destruct (compute_digest _) as [c [e|]]; [discriminate|].
    intros Hb. injection Hb as <-.
    destruct (mlock_oBuffer env); repeat split; intros; discriminate.
Qed.

Lemma upload_limit_fields r b1 b2 :
  upload_limit r b1 = inr b2 ->
  Name b2 = Name b1 /\ Mutex b2 = Mutex b1 /\ Pinned b2 = Pinned b1.
Proof.
  unfold upload_limit. destruct (String.eqb _ "on").
  - destruct (Atoi _) as [l [e|]]; [discriminate|].
    intros Hb. injection Hb as <-. repeat split.
  - intros Hb. injection Hb as <-. repeat split.
Qed.

Lemma upload_expire_fields env r b2 b3 :
  upload_expire env r b2 = inr b3 ->
  Name b3 = Name b2 /\ Mutex b3 = Mutex b2 /\ Pinned b3 = Pinned b2.
Proof.
  unfold upload_expire, SetExpiration. destruct (String.eqb _ "on").
  - destruct (expiry_of _ _) as [t [e|]]; [discriminate|].
    intros Hb. injection Hb as <-. repeat split.
  - intros Hb. injection Hb as <-. repeat split.
Qed.

(** Every early return of these stages is an HTTP error. *)
Lemma upload_content_error env r zip b0 ev :
  upload_content env r zip b0 = inl ev -> exists msg code, ev = HttpError msg code.
Proof.
  unfold upload_content, GetChecksum.
  destruct (String.eqb _ "on").
  - destruct (Encrypt zip _) as [enc [e|]].
    + intros Hb. injection Hb as <-. eauto.
    + destruct (compute_digest _) as [c [e|]]; [|discriminate].
      intros Hb. injection Hb as <-. eauto.
  - destruct (compute_digest _) as [c [e|]]; [|discriminate].
    intros Hb. injection Hb as <-. eauto.
Qed.

Lemma upload_limit_error r b1 ev :
  upload_limit r b1 = inl ev -> exists msg code, ev = HttpError msg code.
Proof.
  unfold upload_limit. destruct (String.eqb _ "on"); [|discriminate].
  destruct (Atoi _) as [l [e|]]; [|discriminate].
  intros Hb. injection Hb as <-. eauto.
Qed.

Lemma upload_expire_error env r b2 ev :
  upload_expire env r b2 = inl ev -> exists msg code, ev = HttpError msg code.
Proof.
  unfold upload_expire, SetExpiration. destruct (String.eqb _ "on"); [|discriminate].
  destruct (expiry_of _ _) as [t [e|]]; [|discriminate].
  intros Hb. injection Hb as <-. eauto.
Qed.

(** C4. An upload that gets as far as writing the share link has registered
    a buffer [b0] whose content was pinned ([Mlock] succeeded), and has then
    run [Destroy] on that very buffer: when upload returns, the entry that
    is live in the store under the new name is [b0] with its pin released. *)
Theorem upload_unpins_registered_buffer (env : HandlerEnv) (ob ob' : onionbox)
    (r : Request) (reply : list Event) :
  upload env ob r = Returns (ob', reply) ->
  releases_bytes reply ->
  mlock_oBuffer env = None ->
  DestroyEnv_ok (destroy_env env) ->
  exists (s0 : Store.t) (b0 : OnionBuffer),
    store ob = Some s0 /\
    Store.Add b0 s0 = (<[SillyName env := b0]> s0, None) /\
    Pinned b0 = true /\
    store ob'
    = Some (<[SillyName env :=
                Unlock (with_Pinned false (with_Mutex true b0))]> s0) /\
    Pinned (Unlock (with_Pinned false (with_Mutex true b0))) = false.
Proof.
  intros Hu Hrel Hpin Hok. unfold upload in Hu.
  destruct (method r).
  - injection Hu as _ <-. destruct (not_releases_page _ _ Hrel).
  - unfold upload_post in Hu.
    destruct (ParseMultipartForm env);
      [injection Hu as _ <-; destruct (not_releases_error _ _ Hrel)|].
    destruct (pipeline env) as [zip| |]; try discriminate.
    destruct (upload_content _ _ _ _) as [ev|b1] eqn:H1;
      [apply upload_content_error in H1 as (msg & code & ->);
       injection Hu as _ <-; destruct (not_releases_error _ _ Hrel)|].
    destruct (upload_limit _ _) as [ev|b2] eqn:H2;
      [apply upload_limit_error in H2 as (msg & code & ->);
       injection Hu as _ <-; destruct (not_releases_error _ _ Hrel)|].
    destruct (upload_expire _ _ _) as [ev|b3] eqn:H3;
      [apply upload_expire_error in H3 as (msg & code & ->);
       injection Hu as _ <-; destruct (not_releases_error _ _ Hrel)|].
    apply upload_content_fields in H1 as (Hn1 & Hm1 & Hp1).
    apply upload_limit_fields in H2 as (Hn2 & Hm2 & Hp2).
    apply upload_expire_fields in H3 as (Hn3 & Hm3 & Hp3).
    assert (Name b3 = SillyName env) as Hname
      by (rewrite Hn3, Hn2, Hn1; reflexivity).
    assert (Mutex b3 = false) as Hmu by (rewrite Hm3, Hm2, Hm1; reflexivity).
    assert (Pinned b3 = true) as Hp by (rewrite Hp3, Hp2; auto).
    unfold upload_register in Hu.
    destruct (store ob) as [s0|]; [|discriminate].
    unfold Store.Add in Hu. rewrite Hname in Hu.
    destruct (s0 !! SillyName env) eqn:Hfree;
      [injection Hu as _ <-; destruct (not_releases_error _ _ Hrel)|].
    rewrite (Destroy_ok _ _ Hok Hmu) in Hu. injection Hu as <- _.
    exists s0, b3. unfold Store.Add. rewrite Hname, Hfree.
    rewrite insert_insert_eq. repeat split. assumption.
  - injection Hu as _ <-. destruct (not_releases_error _ _ Hrel).
Qed.

(** ** The download limit *)

Lemma matches_not_root p : downloadURLreg_matches p = true -> String.eqb p "/" = false.
Proof.
  intros Hm. destruct (String.eqb_spec p "/") as [->|]; [discriminate|reflexivity].
Qed.

(** [router] on a request for a registered name is [download] on it. *)
Lemma router_download env ob r (s : Store.t) name b :
  Path r = String "/" name ->
  downloadURLreg_matches (String "/" name) = true ->
  store ob = Some s -> s !! name = Some b ->
  router env ob r = download env ob (Header_Set "filename" name r).
Proof.
  intros Hp Hm Hs Hb. unfold router.
  rewrite Hp, (matches_not_root _ Hm), Hm, Hs. simpl.
  unfold Store.Exists. rewrite Hb. reflexivity.
Qed.

Lemma Header_Get_Set name r : Header_Get (Header_Set "filename" name r) "filename" = name.
Proof.
  unfold Header_Get, Header_Set. simpl. rewrite lookup_insert_eq. reflexivity.
Qed.

(** One GET below the limit: the download goes through and is counted. *)
Lemma get_counts (er : HandlerEnv * Request) ob name s b d :
  calm_get name er ->
  downloadURLreg_matches (String "/" name) = true ->
  Encrypted b = false ->
  compute_digest (Bytes b) = (Checksum b, None) ->
  0 <= d -> d < DownloadLimit b -> DownloadLimit b < 2 ^ 63 ->
  serving name s b d ob ->
  exists ob1,
    router (fst er) ob (snd er) = Returns (ob1, zip_reply (Name b) (Bytes b)) /\
    serving name s b (d + 1) ob1.
Proof.
  destruct er as [env r]. simpl.
  intros (Hget & Hpath & Hok & Hw) Hm He Hv Hd0 HdL HL
    (s' & b' & Hs & Hb & Hdel & Hby & Hck & Hn & Hen & Hlim & Hdl & Hmu).
  simpl in *.
  rewrite (router_download _ _ _ _ _ _ Hpath Hm Hs Hb).
  unfold download. simpl. rewrite Hget, Hs, Header_Get_Set.
  unfold Store.Get. rewrite Hb. unfold download_get.
  rewrite Hen, He.
  assert (limit_reached b' = false) as ->.
  { unfold limit_reached. rewrite Hlim, Hdl.
    apply andb_false_iff. right. apply Z.leb_gt. lia. }
  assert (ValidateChecksum b' = (true, None)) as ->
    by (apply ValidateChecksum_true; rewrite Hby, Hck; assumption).
  assert (Downloads (count_download b') = d + 1) as Hcnt
    by (unfold count_download; simpl; rewrite Hdl; apply wrap64_small; lia).
  destruct (at_limit (count_download b')).
  - rewrite (Destroy_ok _ _ Hok) by assumption.
    rewrite send_zip_ok by assumption. simpl. rewrite Hn, Hby.
    eexists. split; [reflexivity|].
    eexists _, _. split; [reflexivity|].
    split; [apply lookup_insert_eq|].
    rewrite delete_insert_eq. simpl. repeat split; assumption.
  - rewrite send_zip_ok by assumption. simpl. rewrite Hn, Hby.
    eexists. split; [reflexivity|].
    eexists _, _. split; [reflexivity|].
    split; [apply lookup_insert_eq|].
    rewrite delete_insert_eq. simpl. repeat split; assumption.
Qed.

(** A GET once the count has reached the limit: LimitReached, and the store
    destroys and drops the buffer. *)
Lemma get_refused (er : HandlerEnv * Request) ob name s b :
  calm_get name er ->
  downloadURLreg_matches (String "/" name) = true ->
  Encrypted b = false ->
  0 < DownloadLimit b ->
  serving name s b (DownloadLimit b) ob ->
  exists ob1,
    router (fst er) ob (snd er) = Returns (ob1, limit_reply) /\
    store ob1 = Some (delete name s).
Proof.
  destruct er as [env r]. simpl.
  intros (Hget & Hpath & Hok & Hw) Hm He HL
    (s' & b' & Hs & Hb & Hdel & Hby & Hck & Hn & Hen & Hlim & Hdl & Hmu).
  simpl in *.
  rewrite (router_download _ _ _ _ _ _ Hpath Hm Hs Hb).
  unfold download. simpl. rewrite Hget, Hs, Header_Get_Set.
  unfold Store.Get. rewrite Hb. unfold download_get.
  rewrite Hen, He.
  assert (limit_reached b' = true) as ->.
  { unfold limit_reached. rewrite Hlim, Hdl.
    apply andb_true_iff. split; [apply Z.ltb_lt | apply Z.leb_le]; lia. }
  unfold refuse_limit.
  rewrite (Store_Destroy_ok _ _ _ _ Hb Hmu Hok), Hdel.
  eexists. split; reflexivity.
Qed.

Lemma serve_cons env r rest ob :
  serve ((env, r) :: rest) ob
  = match router env ob r with
    | Blocks => Blocks
    | Panics => Panics
    | Returns (ob1, reply) =>
      match serve rest ob1 with
      | Blocks => Blocks
      | Panics => Panics
      | Returns (ob2, replies) => Returns (ob2, reply :: replies)
      end
    end.
Proof. reflexivity. Qed.

Lemma serve_gets_then_refused (last : HandlerEnv * Request) name s b :
  downloadURLreg_matches (String "/" name) = true ->
  Encrypted b = false ->
  compute_digest (Bytes b) = (Checksum b, None) ->
  0 < DownloadLimit b < 2 ^ 63 ->
  calm_get name last ->
  forall (reqs : list (HandlerEnv * Request)) (d : Z) (ob : onionbox),
    0 <= d -> d + Z.of_nat (length reqs) = DownloadLimit b ->
    Forall (calm_get name) reqs ->
    serving name s b d ob ->
    exists ob',
      serve (reqs ++ [last]) ob
      = Returns (ob', map (fun _ => zip_reply (Name b) (Bytes b)) reqs
                      ++ [limit_reply]) /\
      store ob' = Some (delete name s).
Proof.
  intros Hm He Hv HL Hlast.
  induction reqs as [|er reqs IH]; intros d ob Hd Hlen Hall Hsrv.
  - simpl in Hlen. assert (d = DownloadLimit b) as -> by lia.
    destruct (get_refused last ob name s b Hlast Hm He (proj1 HL) Hsrv)
      as (ob1 & Hr & Hs1).
    exists ob1. destruct last as [env r]. simpl in *. rewrite Hr. auto.
  - apply Forall_cons in Hall as [Her Hall].
    rewrite length_cons, Nat2Z.inj_succ in Hlen.
    destruct (get_counts er ob name s b d Her Hm He Hv Hd) as (ob1 & Hr & Hs1);
      [lia | lia | assumption |].
    destruct (IH (d + 1) ob1) as (ob' & Hserve & Hstore);
      [lia | lia | assumption | assumption |].
    exists ob'. destruct er as [env r]. simpl in *.
    rewrite Hr, Hserve. auto.
Qed.

(** C6, as the code has it.  An unencrypted buffer with download limit
    [L > 0], fetched by GET with no system call failing: [L] downloads in a
    row succeed, and the attempt after them is answered LimitReached while
    the store destroys the buffer and drops it. *)
Theorem limit_get_refuses_next (reqs : list (HandlerEnv * Request))
    (last : HandlerEnv * Request) (ob : onionbox) (s : Store.t)
    (name : string) (b : OnionBuffer) :
  downloadURLreg_matches (String "/" name) = true ->
  store ob = Some s -> s !! name = Some b ->
  Encrypted b = false -> Mutex b = false -> Downloads b = 0 ->
  0 < DownloadLimit b < 2 ^ 63 ->
  Z.of_nat (length reqs) = DownloadLimit b ->
  compute_digest (Bytes b) = (Checksum b, None) ->
  Forall (calm_get name) (reqs ++ [last]) ->
  exists ob',
    serve (reqs ++ [last]) ob
    = Returns (ob', map (fun _ => zip_reply (Name b) (Bytes b)) reqs
                    ++ [limit_reply]) /\
    store ob' = Some (delete name s) /\
    delete name s !! name = None.
Proof.
  intros Hm Hs Hb He Hmu Hd0 HL Hlen Hv Hall.
  apply Forall_app in Hall as [Hall Hlast].
  apply Forall_cons in Hlast as [Hlast _].
  destruct (serve_gets_then_refused last name s b Hm He Hv HL Hlast reqs 0 ob)
    as (ob' & Hserve & Hstore); [lia | lia | assumption | |].
  - exists s, b. repeat split; assumption.
  - exists ob'. repeat split; try assumption. apply lookup_delete_eq.
Qed.

(** The passphrase path.  One POST is served and counted; the one that
    makes the count reach the limit also makes the store drop the buffer. *)
Lemma post_counts (er : HandlerEnv * Request) ob name pass s b d dec :
  calm_post name pass er ->
  downloadURLreg_matches (String "/" name) = true ->
  compute_digest (Bytes b) = (Checksum b, None) ->
  Decrypt (Bytes b) pass = (dec, None) ->
  0 <= d -> d < DownloadLimit b -> DownloadLimit b < 2 ^ 63 ->
  serving name s b d ob ->
  exists ob1,
    router (fst er) ob (snd er) = Returns (ob1, zip_reply (Name b) dec) /\
    (d + 1 < DownloadLimit b -> serving name s b (d + 1) ob1) /\
    (d + 1 = DownloadLimit b -> store ob1 = Some (delete name s)).
Proof.
  destruct er as [env r]. simpl.
  intros (Hpost & Hpath & Hpass & Hok & Hw) Hm Hv Hdec Hd0 HdL HL
    (s' & b' & Hs & Hb & Hdel & Hby & Hck & Hn & Hen & Hlim & Hdl & Hmu).
  simpl in *.
  rewrite (router_download _ _ _ _ _ _ Hpath Hm Hs Hb).
  unfold download. simpl. rewrite Hpost, Hs, Header_Get_Set.
  unfold Store.Get. rewrite Hb. unfold download_post.
  assert (limit_reached b' = false) as ->.
  { unfold limit_reached. rewrite Hlim, Hdl.
    apply andb_false_iff. right. apply Z.leb_gt. lia. }
  assert (ValidateChecksum b' = (true, None)) as ->
    by (apply ValidateChecksum_true; rewrite Hby, Hck; assumption).
  change (FormValue (Header_Set "filename" name r) "password")
    with (FormValue r "password").
  rewrite Hpass, Hby, Hdec.
  assert (Downloads (count_download b') = d + 1) as Hcnt
    by (unfold count_download; simpl; rewrite Hdl; apply wrap64_small; lia).
  unfold at_limit. rewrite Hcnt. simpl Name. simpl DownloadLimit.
  rewrite Hlim, Hn, send_zip_ok by assumption.
  destruct (Z.leb_spec (DownloadLimit b) (d + 1)).
  - rewrite (Store_Destroy_ok _ _ _ (count_download b'));
      [| apply lookup_insert_eq | assumption | assumption].
    rewrite delete_insert_eq, Hdel.
    eexists. split; [reflexivity|]. split; [lia | reflexivity].
  - eexists. split; [reflexivity|]. split; [|lia].
    intros _. eexists _, _. split; [reflexivity|].
    split; [apply lookup_insert_eq|].
    rewrite delete_insert_eq. simpl. repeat split; assumption.
Qed.

(** [L] POST downloads in a row are served; the last of them leaves the
    store without the buffer, and the attempt after them gets no reply. *)
Lemma serve_posts_then_unanswered (last : HandlerEnv * Request) name pass s b dec :
  downloadURLreg_matches (String "/" name) = true ->
  compute_digest (Bytes b) = (Checksum b, None) ->
  Decrypt (Bytes b) pass = (dec, None) ->
  0 < DownloadLimit b < 2 ^ 63 ->
  Path (snd last) = String "/" name ->
  forall (reqs : list (HandlerEnv * Request)) (d : Z) (ob : onionbox),
    0 <= d -> d + Z.of_nat (length reqs) = DownloadLimit b ->
    reqs <> [] ->
    Forall (calm_post name pass) reqs ->
    serving name s b d ob ->
    exists ob',
      serve (reqs ++ [last]) ob
      = Returns (ob', map (fun _ => zip_reply (Name b) dec) reqs ++ [[]]) /\
      store ob' = Some (delete name s).
Proof.
  intros Hm Hv Hdec HL Hlast.
  induction reqs as [|er reqs IH]; intros d ob Hd Hlen Hne Hall Hsrv;
    [congruence|].
  apply Forall_cons in Hall as [Her Hall].
  rewrite length_cons, Nat2Z.inj_succ in Hlen.
  destruct (post_counts er ob name pass s b d dec Her Hm Hv Hdec Hd)
    as (ob1 & Hr & Hbelow & Hat); [lia | lia | assumption |].
  destruct reqs as [|er2 reqs].
  - simpl in Hlen. specialize (Hat ltac:(lia)).
    exists ob1. destruct er as [env r], last as [envl rl].
    cbn [fst snd] in Hr, Hlast. cbn [app serve map]. rewrite Hr.
    unfold router.
    rewrite Hlast, (matches_not_root _ Hm), Hm, Hat. cbn [tail1].
    unfold Store.Exists. rewrite lookup_delete_eq. auto.
  - destruct (IH (d + 1) ob1) as (ob' & Hserve & Hstore);
      [lia | lia | discriminate | assumption | |].
    + apply Hbelow. rewrite length_cons, Nat2Z.inj_succ in Hlen. lia.
    + exists ob'. destruct er as [env r]. cbn [fst snd] in Hr.
      rewrite <- app_comm_cons, serve_cons, Hr, Hserve. auto.
Qed.

End HandlerProperties.

(** ** The handlers on sample requests *)

Lemma router_unknown_name_writes_nothing_witness :
  router (H := Sample.collaborators) Sample.calm (Sample.box ∅)
    (Sample.request GET "/sillyname")
  = Returns (Sample.box ∅, []).
Proof.
  apply (router_unknown_name_writes_nothing (H := Sample.collaborators)
           Sample.calm (Sample.box ∅) (Sample.request GET "/sillyname")
           ∅ "sillyname"); reflexivity.
Defined.

Lemma download_validates_before_release_witness :
  download (H := Sample.collaborators) Sample.calm
    (Sample.box (Sample.holding (Sample.tampered 0)))
    (Header_Set "filename" "sillyname" (Sample.request GET "/sillyname"))
  = Returns (Sample.box (Sample.holding (Sample.tampered 0)),
             [HttpError "Invalid checksum." 500]) /\
  (exists msg code, [HttpError "Invalid checksum." 500] = [HttpError msg code]) /\
  ~ releases_bytes [HttpError "Invalid checksum." 500].
Proof.
  split; [reflexivity|].
  destruct (download_validates_before_release (H := Sample.collaborators)
              Sample.calm
              (Sample.box (Sample.holding (Sample.tampered 0)))
              (Sample.box (Sample.holding (Sample.tampered 0)))
              (Header_Set "filename" "sillyname" (Sample.request GET "/sillyname"))
              (Sample.holding (Sample.tampered 0)) (Sample.tampered 0)
              [HttpError "Invalid checksum." 500])
    as [_ Hrefused]; [reflexivity | reflexivity | reflexivity |].
  apply Hrefused; [simpl; discriminate | reflexivity].
Defined.

Lemma unlimited_post_download_evicts_witness :
  download (H := Sample.collaborators) Sample.calm
    (Sample.box (Sample.holding (Sample.protected 0)))
    (Header_Set "filename" "sillyname" (Sample.unlock "/sillyname"))
  = Returns (Sample.box ∅, zip_reply "sillyname" Sample.secret).
Proof.
  apply (unlimited_post_download_evicts (H := Sample.collaborators)
           Sample.calm (Sample.box (Sample.holding (Sample.protected 0)))
           (Header_Set "filename" "sillyname" (Sample.unlock "/sillyname"))
           (Sample.holding (Sample.protected 0)) (Sample.protected 0)
           Sample.secret);
    try reflexivity; [simpl; lia | repeat split].
Defined.

Lemma upload_unpins_registered_buffer_witness :
  exists (ob' : onionbox) (reply : list Event),
    upload (H := Sample.collaborators) Sample.calm (Sample.box ∅)
      (Sample.request POST "/")
    = Returns (ob', reply) /\
    exists (s0 : Store.t) (b0 : OnionBuffer),
      store (Sample.box ∅) = Some s0 /\
      Store.Add b0 s0 = (<["sillyname" := b0]> s0, None) /\
      Pinned b0 = true /\
      store ob'
      = Some (<["sillyname" :=
                  Unlock (with_Pinned false (with_Mutex true b0))]> s0) /\
      Pinned (Unlock (with_Pinned false (with_Mutex true b0))) = false.
Proof.
  eexists _, _. split; [reflexivity|].
  eapply (upload_unpins_registered_buffer (H := Sample.collaborators)
            Sample.calm (Sample.box ∅) _ (Sample.request POST "/")).
  - reflexivity.
  - eexists _, _. left. reflexivity.
  - reflexivity.
  - repeat split.
Defined.

(** C6 as stated fails on the passphrase path: with limit 1 the first POST
    download is served and already drops the buffer, and the attempt after
    it is handed to nobody: no reply is written, LimitReached or other. *)
Lemma limit_post_next_attempt_unanswered :
  serve (H := Sample.collaborators)
    [(Sample.calm, Sample.unlock "/sillyname");
     (Sample.calm, Sample.unlock "/sillyname")]
    (Sample.box (Sample.holding (Sample.protected 1)))
  = Returns (Sample.box ∅, [zip_reply "sillyname" Sample.secret; []]) /\
  ([] : list Event) <> limit_reply.
Proof.
  split; [reflexivity | discriminate].
Qed.

Lemma limit_get_refuses_next_witness :
  exists ob',
    serve (H := Sample.collaborators)
      ([(Sample.calm, Sample.request GET "/sillyname");
        (Sample.calm, Sample.request GET "/sillyname")]
       ++ [(Sample.calm, Sample.request GET "/sillyname")])
      (Sample.box (Sample.holding (Sample.plain 2)))
    = Returns (ob', map (fun _ => zip_reply "sillyname" Sample.secret)
                      [(Sample.calm, Sample.request GET "/sillyname");
                       (Sample.calm, Sample.request GET "/sillyname")]
                    ++ [limit_reply]) /\
    store ob' = Some (delete "sillyname" (Sample.holding (Sample.plain 2))) /\
    delete "sillyname" (Sample.holding (Sample.plain 2)) !! "sillyname" = None.
Proof.
  apply (limit_get_refuses_next (H := Sample.collaborators)
           [(Sample.calm, Sample.request GET "/sillyname");
            (Sample.calm, Sample.request GET "/sillyname")]
           (Sample.calm, Sample.request GET "/sillyname")
           (Sample.box (Sample.holding (Sample.plain 2)))
           (Sample.holding (Sample.plain 2)) "sillyname" (Sample.plain 2));
    try reflexivity.
  - simpl. lia.
  - simpl. repeat (apply List.Forall_cons; [repeat split|]). apply List.Forall_nil.
Defined.

(** ** The upload pipeline *)

Lemma start_state files s0 :
  Pipeline.start files = Returns s0 ->
  s0 = Pipeline.mkState files false 1 [] Pipeline.Running Pipeline.Waiting.
Proof.
  unfold Pipeline.start. destruct (length files <=? 100)%nat; congruence.
Qed.

(** A step of the handler touches neither the queue's content, nor the
    archive, nor the counter; it is never the completion signal. *)
Lemma handler_step_shape s l s' :
  Pipeline.handler_step s = Some (l, s') ->
  Pipeline.queue s' = Pipeline.queue s /\
  Pipeline.archive s' = Pipeline.archive s /\
  Pipeline.worker s' = Pipeline.worker s /\
  Pipeline.wg s' = Pipeline.wg s /\
  l <> Pipeline.Done /\
  (Pipeline.closed s' = false ->
   Pipeline.closed s = false /\ l <> Pipeline.Close).
Proof.
  unfold Pipeline.handler_step.
  destruct (Pipeline.worker s), (Pipeline.handler s); try discriminate;
    try (destruct (Pipeline.wg s =? 0); [|discriminate]);
    intros Hx; injection Hx as <- <-; simpl;
    repeat split; auto; discriminate.
Qed.

(** What holds in every state the pipeline reaches: the worker, while it
    runs, has written exactly the files no longer queued; the queue is
    closed only by [Close]; the counter is 1 until the signal and 0 after. *)
Lemma run_invariant files s0 tr s :
  Pipeline.start files = Returns s0 ->
  Pipeline.run s0 tr s ->
  (Pipeline.worker s = Pipeline.Running ->
   Pipeline.archive s ++ map Pipeline.entry_of (Pipeline.queue s)
   = map Pipeline.entry_of files) /\
  (Pipeline.closed s = false -> ~ In Pipeline.Close tr) /\
  (Pipeline.wg s = 1 /\ ~ In Pipeline.Done tr
   \/ Pipeline.wg s = 0 /\ In Pipeline.Done tr).
Proof.
  intros Hstart Hrun. apply start_state in Hstart.
  induction Hrun as [s|s tr s1 l s2 Hrun IH Hstep].
  - subst s. simpl. repeat split; auto.
  - specialize (IH Hstart). destruct IH as (Harch & Hclosed & Hwg).
    destruct Hstep as [Hw|Hh].
    + unfold Pipeline.worker_step in Hw.
      destruct (Pipeline.worker s1) eqn:Hrunning; try discriminate.
      specialize (Harch eq_refl).
      destruct (Pipeline.queue s1) as [|f q] eqn:Hq.
      * destruct (Pipeline.closed s1) eqn:Hc.
        -- injection Hw as <- <-. simpl.
           split; [discriminate|]. split; [discriminate|].
           destruct Hwg as [[Hone Hno]|[Hzero Hin]]; [left|right];
             (split; [assumption|]); rewrite in_app_iff; simpl; intuition congruence.
        -- destruct (Z.leb_spec 1 (Pipeline.wg s1)).
           ++ injection Hw as <- <-. simpl. split; [auto|].
              split; [intros _; rewrite in_app_iff; simpl;
                      specialize (Hclosed eq_refl); intuition congruence|].
              right. split; [lia | rewrite in_app_iff; simpl; auto].
           ++ injection Hw as <- <-. simpl.
              split; [discriminate|].
              split; [intros _; rewrite in_app_iff; simpl;
                      specialize (Hclosed eq_refl); intuition congruence|].
              destruct Hwg as [[Hone Hno]|[Hzero Hin]]; [left|right];
                (split; [assumption|]); rewrite in_app_iff; simpl;
                intuition congruence.
      * destruct (Pipeline.io_fault f).
        -- injection Hw as <- <-. simpl.
           split; [discriminate|].
           split; [intros Hc; rewrite in_app_iff; simpl;
                   specialize (Hclosed Hc); intuition congruence|].
           destruct Hwg as [[Hone Hno]|[Hzero Hin]]; [left|right];
             (split; [assumption|]); rewrite in_app_iff; simpl;
             intuition congruence.
        -- injection Hw as <- <-. simpl.
           split; [intros _; rewrite <- app_assoc; exact Harch|].
           split; [intros Hc; rewrite in_app_iff; simpl;
                   specialize (Hclosed Hc); intuition congruence|].
           destruct Hwg as [[Hone Hno]|[Hzero Hin]]; [left|right];
             (split; [assumption|]); rewrite in_app_iff; simpl;
             intuition congruence.
    + apply handler_step_shape in Hh as (Hq & Ha & Hwk & Hg & Hl & Hc).
      rewrite Hq, Ha, Hwk, Hg.
      split; [assumption|].
      split.
      * intros Hc2. destruct (Hc Hc2) as [Hc1 Hne].
        rewrite in_app_iff. simpl. specialize (Hclosed Hc1). intuition congruence.
      * destruct Hwg as [[Hone Hno]|[Hzero Hin]]; [left|right];
          (split; [assumption|]); rewrite in_app_iff; simpl; intuition congruence.
Qed.

Lemma worker_steps_S n s :
  Pipeline.worker_steps (S n) s
  = match Pipeline.worker_step s with
    | None => ([], s)
    | Some (l, s1) =>
        let (tr, s2) := Pipeline.worker_steps n s1 in (l :: tr, s2)
    end.
Proof. reflexivity. Qed.

(** The worker alone, on a queue whose files raise no I/O error: it writes
    them in order, then signals. *)
Lemma worker_steps_writes q :
  Forall (fun f => Pipeline.io_fault f = None) q ->
  forall arch h,
    Pipeline.worker_steps (S (length q))
      (Pipeline.mkState q false 1 arch Pipeline.Running h)
    = (map Pipeline.Wrote q ++ [Pipeline.Done],
       Pipeline.mkState [] false 0 (arch ++ map Pipeline.entry_of q)
         Pipeline.Running h).
Proof.
  induction 1 as [|f q Hf Hq IH]; intros arch h.
  - simpl. rewrite app_nil_r. reflexivity.
  - change (length (f :: q)) with (S (length q)).
    rewrite worker_steps_S. unfold Pipeline.worker_step at 1.
    cbn [Pipeline.worker Pipeline.queue Pipeline.closed Pipeline.wg
         Pipeline.archive Pipeline.handler].
    rewrite Hf, IH. simpl. rewrite <- app_assoc. reflexivity.
Qed.

(** C8, as the code has it.  The worker gives the completion signal
    ([wg.Done()]) from the [default] branch, on finding the queue empty:
    whenever it does, the queue is empty and not closed, [close] has not
    run, no signal was given before, and every file that was enqueued is in
    the archive.  On files that raise no I/O error the worker does get
    there: it writes them in order, then signals. *)
Theorem completion_signalled_on_empty_queue (files : list Pipeline.FileHeader)
    (s0 : Pipeline.State) :
  Pipeline.start files = Returns s0 ->
  (forall tr s s',
     Pipeline.run s0 tr s ->
     Pipeline.worker_step s = Some (Pipeline.Done, s') ->
     Pipeline.queue s = [] /\ Pipeline.closed s = false /\
     ~ In Pipeline.Close tr /\ ~ In Pipeline.Done tr /\
     Pipeline.archive s = map Pipeline.entry_of files) /\
  (Forall (fun f => Pipeline.io_fault f = None) files ->
   fst (Pipeline.worker_steps (S (length files)) s0)
   = map Pipeline.Wrote files ++ [Pipeline.Done]).
Proof.
  intros Hstart. split.
  - intros tr s s' Hrun Hdone.
    destruct (run_invariant files s0 tr s Hstart Hrun) as (Harch & Hclosed & Hwg).
    unfold Pipeline.worker_step in Hdone.
    destruct (Pipeline.worker s); try discriminate.
    destruct (Pipeline.queue s) as [|f q];
      [|destruct (Pipeline.io_fault f); discriminate].
    destruct (Pipeline.closed s); [discriminate|].
    destruct (Z.leb_spec 1 (Pipeline.wg s)); [|discriminate].
    specialize (Harch eq_refl). simpl in Harch. rewrite app_nil_r in Harch.
    repeat split; auto.
    destruct Hwg as [[_ Hno]|[Hzero _]]; [assumption | lia].
  - intros Hfiles. apply start_state in Hstart as ->.
    rewrite (worker_steps_writes files Hfiles). reflexivity.
Qed.

Lemma completion_signalled_on_empty_queue_witness :
  (forall tr s s',
     Pipeline.run
       (Pipeline.mkState [Sample.file_a] false 1 [] Pipeline.Running
          Pipeline.Waiting) tr s ->
     Pipeline.worker_step s = Some (Pipeline.Done, s') ->
     Pipeline.queue s = [] /\ Pipeline.closed s = false /\
     ~ In Pipeline.Close tr /\ ~ In Pipeline.Done tr /\
     Pipeline.archive s = map Pipeline.entry_of [Sample.file_a]) /\
  (Forall (fun f => Pipeline.io_fault f = None) [Sample.file_a] ->
   fst (Pipeline.worker_steps 2
          (Pipeline.mkState [Sample.file_a] false 1 [] Pipeline.Running
             Pipeline.Waiting))
   = map Pipeline.Wrote [Sample.file_a] ++ [Pipeline.Done]).
Proof.
  apply (completion_signalled_on_empty_queue [Sample.file_a]). reflexivity.
Defined.

(** C8 as stated fails: with one file enqueued the worker writes it and then
    signals completion, and at that signal the queue has not been closed. *)
Lemma completion_signalled_before_close :
  exists s0 s s',
    Pipeline.start [Sample.file_a] = Returns s0 /\
    Pipeline.run s0 [Pipeline.Wrote Sample.file_a] s /\
    Pipeline.worker_step s = Some (Pipeline.Done, s') /\
    Pipeline.closed s = false /\
    Pipeline.archive s = [Pipeline.entry_of Sample.file_a].
Proof.
  eexists _, _, _. split; [reflexivity|].
  split.
  - apply (Pipeline.run_snoc _ [] _ _ _ (Pipeline.run_nil _)).
    apply Pipeline.step_worker. reflexivity.
  - repeat split.
Qed.

(** * Further properties of the code *)

(** ** IsExpired and Destroy *)

(** X1. Once [IsExpired] answers [true] it answers [true] at every later
    instant. *)
Theorem IsExpired_stays (b : OnionBuffer) (t1 t2 : Time) :
  IsExpired b t1 = true -> at_or_past t2 t1 = true -> IsExpired b t2 = true.
Proof.
  rewrite !IsExpired_at_or_past. unfold at_or_past.
  destruct (ExpiresAt b) as [es en], t1 as [s1 n1], t2 as [s2 n2]; simpl.
  rewrite !orb_true_iff, !andb_true_iff, !Z.ltb_lt, !Z.eqb_eq, !Z.leb_le.
  lia.
Qed.

Lemma IsExpired_stays_witness :
  IsExpired (with_ExpiresAt (mkTime 100 5) (Sample.plain 0)) (mkTime 100 5) = true /\
  IsExpired (with_ExpiresAt (mkTime 100 5) (Sample.plain 0)) (mkTime 101 0) = true.
Proof.
  split; [reflexivity|].
  apply (IsExpired_stays _ (mkTime 100 5)); reflexivity.
Defined.



(** X3. The error of [zWriter.Create] is dropped; when it fails and the
    buffer holds at least one byte, the first [bufFile.Write] goes through a
    nil writer and [Destroy] panics instead of returning. *)
Theorem Destroy_panics_on_nil_entry (env : DestroyEnv) (b : OnionBuffer)
    (e : error) (x : byte) (rest : list byte) :
  Mutex b = false -> mlock_chunk env = None ->
  read_fault env 0%nat = None -> zip_create env = Some e ->
  Bytes b = x :: rest ->
  Destroy env b = Panics.
Proof.
  intros Hm Hl Hr Hc Hb. unfold Destroy.
  rewrite (Lock_free _ Hm), Hl, with_Mutex_Bytes, Hb. simpl.
  rewrite Hr, Hc. reflexivity.
Qed.

Lemma Destroy_panics_on_nil_entry_witness :
  Destroy (mkDestroyEnv None (Some (ErrOther "zip: FileHeader.Name too long"))
             (fun _ => None) (fun _ => None) None)
    (Sample.plain 0)
  = Panics.
Proof.
  apply (Destroy_panics_on_nil_entry _ _
           (ErrOther "zip: FileHeader.Name too long") "a"%byte ["b"; "c"]%byte);
    reflexivity.
Defined.

(** X4. With no fault, the loop of [Destroy] runs once per content byte and
    ends on EOF; what it hands to the scratch zip entry is that many
    characters ["0"] (0x30, not the zero byte). *)
Theorem Destroy_loop_writes_zero_chars (env : DestroyEnv) (b : OnionBuffer) :
  DestroyEnv_ok env ->
  wipe_loop env (Bytes b) 0 []
  = LoopBreak EOF (replicate (length (Bytes b)) Byte.x30) /\
  Byte.x30 <> Byte.x00.
Proof.
  intros Hok. split; [|discriminate].
  apply (wipe_loop_ok env (Bytes b) Hok 0%nat []).
Qed.

Lemma Destroy_loop_writes_zero_chars_witness :
  wipe_loop Sample.quiet (Bytes (Sample.plain 0)) 0 []
  = LoopBreak EOF [Byte.x30; Byte.x30; Byte.x30] /\
  Byte.x30 <> Byte.x00.
Proof.
  apply (Destroy_loop_writes_zero_chars Sample.quiet (Sample.plain 0)).
  repeat split.
Defined.

(** ** writeBytesByChunk *)

Lemma chunk_loop_copies size write chunks tail e rest :
  Forall (fun c => Z.of_nat (length c) <= size) chunks ->
  (forall i, write i = None) ->
  forall i writes,
    chunk_loop size (map (fun c => (c, None)) chunks ++ (tail, Some e) :: rest)
      write i writes
    = ChunkReturns (if is_EOF e then None else Some e) (writes ++ chunks).
Proof.
  intros Hsize Hw. induction Hsize as [|c chunks Hc _ IH]; intros i writes.
  - simpl. rewrite app_nil_r. destruct (is_EOF e); reflexivity.
  - simpl. destruct (Z.ltb_spec size (Z.of_nat (length c))); [lia|].
    rewrite Hw, IH, <- app_assoc. reflexivity.
Qed.

(** X5. A reader that delivers some chunks and then an error: when no write
    fails, [writeBytesByChunk] has written exactly those chunks, in order;
    it returns nil when the error is EOF and the error itself otherwise.  The
    bytes that came with the error, and whatever the reader held after it,
    are not written. *)
Theorem writeBytesByChunk_copies (env : ChunkEnv) (ob : onionbox)
    (chunks : list (list byte)) (tail : list byte) (e : error)
    (rest : list (list byte * option error)) :
  0 <= chunkSize ob ->
  chunk_Mlock env = None ->
  chunk_reads env = map (fun c => (c, None)) chunks ++ (tail, Some e) :: rest ->
  Forall (fun c => Z.of_nat (length c) <= chunkSize ob) chunks ->
  (forall i, chunk_Write env i = None) ->
  writeBytesByChunk env ob
  = ChunkReturns (if is_EOF e then None else Some e) chunks.
Proof.
  intros Hsize Hl Hreads Hchunks Hw. unfold writeBytesByChunk.
  destruct (Z.ltb_spec (chunkSize ob) 0); [lia|].
  rewrite Hl, Hreads.
  apply (chunk_loop_copies _ _ _ _ _ _ Hchunks Hw 0%nat []).
Qed.

Lemma writeBytesByChunk_copies_witness :
  writeBytesByChunk Sample.three_bytes (Sample.box ∅)
  = ChunkReturns None [["a"; "b"]%byte; ["c"]%byte].
Proof.
  apply (writeBytesByChunk_copies Sample.three_bytes (Sample.box ∅)
           [["a"; "b"]%byte; ["c"]%byte] ["z"]%byte EOF []).
  - simpl. lia.
  - reflexivity.
  - reflexivity.
  - repeat (apply List.Forall_cons; [simpl; lia|]). apply List.Forall_nil.
  - reflexivity.
Defined.

Lemma chunk_loop_write_fails size write e :
  forall chunks rest k i writes,
    Forall (fun c => Z.of_nat (length c) <= size) chunks ->
    (k < length chunks)%nat ->
    (forall j, (j < k)%nat -> write (i + j)%nat = None) ->
    write (i + k)%nat = Some e ->
    chunk_loop size (map (fun c => (c, None)) chunks ++ rest) write i writes
    = ChunkReturns (Some e) (writes ++ take k chunks).
Proof.
  induction chunks as [|c chunks IH]; intros rest k i writes Hsize Hk Hbefore Hat;
    [simpl in Hk; lia|].
  apply Forall_cons in Hsize as [Hc Hsize]. simpl.
  destruct (Z.ltb_spec size (Z.of_nat (length c))); [lia|].
  destruct k as [|k].
  - rewrite Nat.add_0_r in Hat. rewrite Hat, app_nil_r. reflexivity.
  - rewrite <- (Nat.add_0_r i), (Hbefore 0%nat) by lia.
    rewrite Nat.add_0_r.
    rewrite (IH rest k (S i) (writes ++ [c]) Hsize).
    + rewrite <- app_assoc. reflexivity.
    + simpl in Hk. lia.
    + intros j Hj. replace (S i + j)%nat with (i + S j)%nat by lia.
      apply Hbefore. lia.
    + replace (S i + k)%nat with (i + S k)%nat by lia. assumption.
Qed.

(** X6. The first write that fails ends [writeBytesByChunk] at once with that
    error: the chunks before it were written, the failing one and the rest
    of the file are not, and the reader is not asked again. *)
Theorem writeBytesByChunk_write_fails (env : ChunkEnv) (ob : onionbox)
    (chunks : list (list byte)) (rest : list (list byte * option error))
    (k : nat) (e : error) :
  0 <= chunkSize ob ->
  chunk_Mlock env = None ->
  chunk_reads env = map (fun c => (c, None)) chunks ++ rest ->
  Forall (fun c => Z.of_nat (length c) <= chunkSize ob) chunks ->
  (k < length chunks)%nat ->
  (forall j, (j < k)%nat -> chunk_Write env j = None) ->
  chunk_Write env k = Some e ->
  writeBytesByChunk env ob = ChunkReturns (Some e) (take k chunks).
Proof.
  intros Hsize Hl Hreads Hchunks Hk Hbefore Hat. unfold writeBytesByChunk.
  destruct (Z.ltb_spec (chunkSize ob) 0); [lia|].
  rewrite Hl, Hreads.
  apply (chunk_loop_write_fails _ _ e chunks rest k 0%nat []); assumption.
Qed.

Lemma writeBytesByChunk_write_fails_witness :
  writeBytesByChunk
    (mkChunkEnv None (chunk_reads Sample.three_bytes)
       (fun i => if (i =? 1)%nat then Some (ErrOther "zip: write") else None))
    (Sample.box ∅)
  = ChunkReturns (Some (ErrOther "zip: write")) [["a"; "b"]%byte].
Proof.
  apply (writeBytesByChunk_write_fails _ (Sample.box ∅)
           [["a"; "b"]%byte; ["c"]%byte] [(["z"]%byte, Some EOF)] 1%nat).
  - simpl. lia.
  - reflexivity.
  - reflexivity.
  - repeat (apply List.Forall_cons; [simpl; lia|]). apply List.Forall_nil.
  - simpl. lia.
  - intros j Hj. assert (j = 0%nat) as -> by lia. reflexivity.
  - reflexivity.
Defined.

Lemma chunk_loop_bounded size write :
  forall reads i writes,
    Forall (fun w => Z.of_nat (length w) <= size) writes ->
    Forall (fun w => Z.of_nat (length w) <= size)
      (chunk_writes (chunk_loop size reads write i writes)) /\
    chunk_writes (chunk_loop size reads write i writes)
      `prefix_of` (writes ++ map fst reads).
Proof.
  induction reads as [|[data [e|]] reads IH]; intros i writes Hb; simpl.
  - split; [assumption | apply prefix_app_r; reflexivity].
  - destruct (is_EOF e); simpl;
      (split; [assumption | apply prefix_app_r; reflexivity]).
  - destruct (Z.ltb_spec size (Z.of_nat (length data))); simpl;
      [split; [assumption | apply prefix_app_r; reflexivity]|].
    destruct (write i); simpl;
      [split; [assumption | apply prefix_app_r; reflexivity]|].
    replace (writes ++ data :: map fst reads)
      with ((writes ++ [data]) ++ map fst reads)
      by (rewrite <- app_assoc; reflexivity).
    apply IH.
    apply Forall_app. split; [assumption|]. apply Forall_singleton. lia.
Qed.

(** X7. In every run of [writeBytesByChunk], however it ends, the slices it
    has written are the first results of the reader, in order and unchanged,
    and none is longer than [chunkSize]. *)
Theorem writeBytesByChunk_bounded (env : ChunkEnv) (ob : onionbox) :
  Forall (fun w => Z.of_nat (length w) <= chunkSize ob)
    (chunk_writes (writeBytesByChunk env ob)) /\
  chunk_writes (writeBytesByChunk env ob) `prefix_of` map fst (chunk_reads env).
Proof.
  unfold writeBytesByChunk.
  destruct (chunkSize ob <? 0); simpl;
    [split; [constructor | apply prefix_nil]|].
  destruct (chunk_Mlock env); simpl;
    [split; [constructor | apply prefix_nil]|].
  apply (chunk_loop_bounded _ _ (chunk_reads env) 0%nat []). constructor.
Qed.

(** ** router, download and upload: what they never do *)

Lemma wipe_loop_no_panic env :
  zip_create env = None ->
  forall input i scratch, wipe_loop env input i scratch <> LoopPanic.
Proof.
  intros Hc. induction input as [|x rest IH]; intros i scratch; simpl.
  - destruct (read_fault env i); discriminate.
  - destruct (read_fault env i); [discriminate|]. rewrite Hc.
    destruct (write_fault env i); [discriminate | apply IH].
Qed.

Lemma Destroy_no_panic env b : zip_create env = None -> Destroy env b <> Panics.
Proof.
  intros Hc. unfold Destroy, Lock. destruct (Mutex b); [discriminate|].
  destruct (mlock_chunk env); [discriminate|].
  pose proof (wipe_loop_no_panic env Hc (Bytes (with_Mutex true b)) 0%nat [])
    as Hloop.
  destruct (wipe_loop env _ 0 []) as [e sc|e sc|]; [| discriminate | congruence].
  destruct (is_EOF e); [destruct (munlock_bytes env)|]; discriminate.
Qed.

Lemma Store_Destroy_no_panic env name (s : Store.t) :
  zip_create env = None -> Store.Destroy env name s <> Panics.
Proof.
  intros Hc. unfold Store.Destroy. destruct (s !! name) as [b|]; [|discriminate].
  pose proof (Destroy_no_panic env b Hc) as Hd.
  destruct (Destroy env b) as [[[e|] b']| |]; congruence.
Qed.

Lemma matches_tail1 p :
  downloadURLreg_matches p = true -> exists name, tail1 p = Some name.
Proof.
  destruct p as [|c rest]; [discriminate | simpl; eauto].
Qed.

Section HandlerSafety.
Context `{Collaborators}.

Lemma refuse_limit_no_panic env ob s name :
  zip_create (destroy_env env) = None -> refuse_limit env ob s name <> Panics.
Proof.
  intros Hc. unfold refuse_limit.
  pose proof (Store_Destroy_no_panic (destroy_env env) name s Hc) as Hd.
  destruct (Store.Destroy _ name s) as [[e s']| |]; congruence.
Qed.

Lemma download_no_panic env ob r (s : Store.t) b :
  store ob = Some s -> s !! Header_Get r "filename" = Some b ->
  zip_create (destroy_env env) = None ->
  download env ob r <> Panics.
Proof.
  intros Hs Hb Hc. unfold download, Store.Get. rewrite Hs, Hb.
  destruct (method r); [| |discriminate].
  - unfold download_get. destruct (Encrypted b); [discriminate|].
    destruct (limit_reached b); [apply refuse_limit_no_panic; assumption|].
    destruct (ValidateChecksum b) as [[|] [e|]]; try discriminate.
    destruct (at_limit _); [|discriminate].
    pose proof (Destroy_no_panic (destroy_env env) (count_download b) Hc) as Hd.
    destruct (Destroy _ (count_download b)) as [[e b']| |]; congruence.
  - unfold download_post.
    destruct (limit_reached b); [apply refuse_limit_no_panic; assumption|].
    destruct (ValidateChecksum b) as [[|] [e|]]; try discriminate.
    destruct (Decrypt _ _) as [dec [e|]]; [discriminate|].
    destruct (at_limit _); [|discriminate].
    pose proof (Store_Destroy_no_panic (destroy_env env)
                  (Header_Get r "filename")
                  (<[Header_Get r "filename" := count_download b]> s) Hc) as Hd.
    destruct (Store.Destroy _ _ _) as [[e s']| |]; congruence.
Qed.

Lemma upload_no_panic env ob r (s : Store.t) :
  store ob = Some s -> pipeline env <> Panics ->
  zip_create (destroy_env env) = None ->
  upload env ob r <> Panics.
Proof.
  intros Hs Hp Hc. unfold upload. destruct (method r); try discriminate.
  unfold upload_post. destruct (ParseMultipartForm env); [discriminate|].
  destruct (pipeline env) as [zip| |]; [|discriminate|congruence].
  destruct (upload_content _ _ _ _) as [ev|b1]; [discriminate|].
  destruct (upload_limit _ _) as [ev|b2]; [discriminate|].
  destruct (upload_expire _ _ _) as [ev|b3]; [discriminate|].
  unfold upload_register. rewrite Hs.
  destruct (Store.Add b3 s) as [s1 [e|]]; [discriminate|].
  pose proof (Destroy_no_panic (destroy_env env) b3 Hc) as Hd.
  destruct (Destroy _ b3) as [[e b']| |]; congruence.
Qed.

(** X8. With a store in place, [router] does not panic on any request unless
    the pipeline of an upload does or the zip entry of [Destroy] cannot be
    created: the path is never sliced when empty, and [download] is only
    entered for a name that [Get] finds. *)
Theorem router_never_panics (env : HandlerEnv) (ob : onionbox) (r : Request)
    (s : Store.t) :
  store ob = Some s ->
  pipeline env <> Panics ->
  zip_create (destroy_env env) = None ->
  router env ob r <> Panics.
Proof.
  intros Hs Hp Hc. unfold router.
  destruct (String.eqb (Path r) "/");
    [apply (upload_no_panic _ _ _ s); assumption|].
  destruct (downloadURLreg_matches (Path r)) eqn:Hm; [|discriminate].
  rewrite Hs. destruct (matches_tail1 _ Hm) as [name ->].
  unfold Store.Exists. destruct (s !! name) as [b|] eqn:Hb; [|discriminate].
  apply (download_no_panic _ _ _ s b); try assumption.
  rewrite Header_Get_Set. assumption.
Qed.

Lemma Store_Destroy_frame env name (s s' : Store.t) err :
  Store.Destroy env name s = Returns (err, s') ->
  forall k, k <> name -> s' !! k = s !! k.
Proof.
  unfold Store.Destroy. destruct (s !! name) as [b|].
  - destruct (Destroy env b) as [[[e|] b']| |]; try discriminate;
      intros Hd; injection Hd as _ <-; intros k Hk.
    + apply lookup_insert_ne. congruence.
    + apply lookup_delete_ne. congruence.
  - intros Hd. injection Hd as _ <-. reflexivity.
Qed.

(** X9. A download touches no entry of the store but the one it was asked
    for: every other name maps to what it mapped to before. *)
Theorem download_frame (env : HandlerEnv) (ob ob' : onionbox) (r : Request)
    (s : Store.t) (reply : list Event) :
  store ob = Some s ->
  download env ob r = Returns (ob', reply) ->
  exists s' : Store.t,
    store ob' = Some s' /\
    forall k, k <> Header_Get r "filename" -> s' !! k = s !! k.
Proof.
  intros Hs Hd.
  assert (ob' = ob -> exists s' : Store.t, store ob' = Some s' /\
            forall k, k <> Header_Get r "filename" -> s' !! k = s !! k) as Hsame
    by (intros ->; eauto).
  assert (forall b', ob' = with_store (<[Header_Get r "filename" := b']> s) ob ->
            exists s' : Store.t, store ob' = Some s' /\
              forall k, k <> Header_Get r "filename" -> s' !! k = s !! k) as Hins.
  { intros b' ->. eexists. split; [reflexivity|].
    intros k Hk. apply lookup_insert_ne. congruence. }
  assert (forall ob1 rep, refuse_limit env ob s (Header_Get r "filename")
                          = Returns (ob1, rep) ->
            exists s' : Store.t, store ob1 = Some s' /\
              forall k, k <> Header_Get r "filename" -> s' !! k = s !! k) as Href.
  { intros ob1 rep. unfold refuse_limit.
    destruct (Store.Destroy _ _ s) as [[err s']| |] eqn:Hsd; try discriminate.
    intros Hx. injection Hx as <- _. eexists. split; [reflexivity|].
    apply (Store_Destroy_frame _ _ _ _ _ Hsd). }
  unfold download, Store.Get in Hd. rewrite Hs in Hd.
  destruct (method r).
  - destruct (s !! Header_Get r "filename") as [b|]; [|discriminate].
    unfold download_get in Hd.
    destruct (Encrypted b); [injection Hd as <- _; auto|].
    destruct (limit_reached b); [eapply Href; eassumption|].
    destruct (ValidateChecksum b) as [[|] [e|]];
      try (injection Hd as <- _; auto; fail).
    destruct (at_limit _).
    + destruct (Destroy _ _) as [[e b2]| |]; try discriminate.
      injection Hd as <- _. eapply Hins. reflexivity.
    + injection Hd as <- _. eapply Hins. reflexivity.
  - destruct (s !! Header_Get r "filename") as [b|]; [|discriminate].
    unfold download_post in Hd.
    destruct (limit_reached b); [eapply Href; eassumption|].
    destruct (ValidateChecksum b) as [[|] [e|]];
      try (injection Hd as <- _; auto; fail).
    destruct (Decrypt _ _) as [dec [e|]]; [injection Hd as <- _; auto|].
    destruct (at_limit _).
    + destruct (Store.Destroy _ _ _) as [[e s2]| |] eqn:Hsd; try discriminate.
      injection Hd as <- _. eexists. split; [reflexivity|].
      intros k Hk. rewrite (Store_Destroy_frame _ _ _ _ _ Hsd k Hk).
      apply lookup_insert_ne. congruence.
    + injection Hd as <- _. eapply Hins. reflexivity.
  - injection Hd as <- _. auto.
Qed.

(** X10. A download that writes no body and is not the refusal of the limit
    branch changes nothing: a bad checksum, a wrong passphrase, the GET of a
    passphrase-protected buffer or an unknown method leave the store and the
    download count as they were. *)
Theorem download_without_body_changes_nothing (env : HandlerEnv)
    (ob ob' : onionbox) (r : Request) (reply : list Event) :
  download env ob r = Returns (ob', reply) ->
  ~ releases_bytes reply ->
  reply <> limit_reply ->
  ob' = ob.
Proof.
  intros Hd Hno Hnl.
  assert (forall name body, reply = send_zip env name body -> ob' = ob) as Hzip.
  { intros name body ->. destruct Hno. exists body, (client_Write env).
    unfold send_zip. simpl. auto. }
  unfold download, Store.Get in Hd.
  destruct (method r).
  - destruct (store ob) as [s|]; [|discriminate].
    destruct (s !! Header_Get r "filename") as [b|]; [|discriminate].
    unfold download_get in Hd.
    destruct (Encrypted b); [injection Hd as <- _; reflexivity|].
    destruct (limit_reached b);
      [apply refuse_limit_reply in Hd; contradiction|].
    destruct (ValidateChecksum b) as [[|] [e|]];
      try (injection Hd as <- _; reflexivity).
    destruct (at_limit _).
    + destruct (Destroy _ _) as [[e b2]| |]; try discriminate.
      injection Hd as _ <-. eapply Hzip. reflexivity.
    + injection Hd as _ <-. eapply Hzip. reflexivity.
  - destruct (store ob) as [s|]; [|discriminate].
    destruct (s !! Header_Get r "filename") as [b|]; [|discriminate].
    unfold download_post in Hd.
    destruct (limit_reached b);
      [apply refuse_limit_reply in Hd; contradiction|].
    destruct (ValidateChecksum b) as [[|] [e|]];
      try (injection Hd as <- _; reflexivity).
    destruct (Decrypt _ _) as [dec [e|]]; [injection Hd as <- _; reflexivity|].
    destruct (at_limit _).
    + destruct (Store.Destroy _ _ _) as [[e s2]| |]; try discriminate.
      injection Hd as _ <-. eapply Hzip. reflexivity.
    + injection Hd as _ <-. eapply Hzip. reflexivity.
  - injection Hd as <- _. reflexivity.
Qed.

Lemma Store_Destroy_entry env name (s s' : Store.t) err b :
  Store.Destroy env name s = Returns (err, s') ->
  s !! name = Some b ->
  s' !! name = None \/ s' !! name = Some (with_Mutex true b).
Proof.
  unfold Store.Destroy. intros Hd Hb. rewrite Hb in Hd.
  destruct (Destroy env b) as [[[e|] b']| |] eqn:Hdes; try discriminate;
    injection Hd as _ <-.
  - right. apply Destroy_returns in Hdes as (_ & [[-> _] | [_ Hx]]);
      [apply lookup_insert_eq | discriminate].
  - left. apply lookup_delete_eq.
Qed.

(** X11. A download that writes a body has counted exactly one download:
    afterwards the buffer is either gone from the store or registered with
    [Downloads] one higher (in 64-bit arithmetic), its content, digest and
    limit unchanged. *)
Theorem download_counts_once (env : HandlerEnv) (ob ob' : onionbox)
    (r : Request) (s : Store.t) (b : OnionBuffer) (reply : list Event) :
  store ob = Some s ->
  s !! Header_Get r "filename" = Some b ->
  download env ob r = Returns (ob', reply) ->
  releases_bytes reply ->
  exists s' : Store.t,
    store ob' = Some s' /\
    (s' !! Header_Get r "filename" = None \/
     exists b', s' !! Header_Get r "filename" = Some b' /\
       Downloads b' = wrap64 (Downloads b + 1) /\
       Bytes b' = Bytes b /\ Checksum b' = Checksum b /\
       DownloadLimit b' = DownloadLimit b).
Proof.
  intros Hs Hb Hd Hrel.
  assert (forall msg code, reply <> [HttpError msg code]) as Hne
    by (intros msg code ->; destruct (not_releases_error _ _ Hrel)).
  assert (forall b', Downloads b' = wrap64 (Downloads b + 1) ->
            Bytes b' = Bytes b -> Checksum b' = Checksum b ->
            DownloadLimit b' = DownloadLimit b ->
            ob' = with_store (<[Header_Get r "filename" := b']> s) ob ->
            exists s' : Store.t,
              store ob' = Some s' /\
              (s' !! Header_Get r "filename" = None \/
               exists b', s' !! Header_Get r "filename" = Some b' /\
                 Downloads b' = wrap64 (Downloads b + 1) /\
                 Bytes b' = Bytes b /\ Checksum b' = Checksum b /\
                 DownloadLimit b' = DownloadLimit b)) as Hins.
  { intros b' H1 H2 H3 H4 ->. eexists. split; [reflexivity|]. right.
    exists b'. rewrite lookup_insert_eq. auto. }
  unfold download, Store.Get in Hd. rewrite Hs, Hb in Hd.
  destruct (method r).
  - unfold download_get in Hd.
    destruct (Encrypted b);
      [injection Hd as _ <-; destruct (not_releases_page _ _ Hrel)|].
    destruct (limit_reached b);
      [apply refuse_limit_reply in Hd; destruct (Hne _ _ Hd)|].
    destruct (ValidateChecksum b) as [[|] [e|]];
      try (injection Hd as _ Hd; symmetry in Hd; destruct (Hne _ _ Hd)).
    destruct (at_limit _).
    + destruct (Destroy _ _) as [[e b2]| |] eqn:Hdes; try discriminate.
      injection Hd as <- _.
      apply Destroy_returns in Hdes as (_ & [[-> _] | [-> _]]);
        (eapply Hins; [..|reflexivity]; reflexivity).
    + injection Hd as <- _. eapply Hins; [..|reflexivity]; reflexivity.
  - unfold download_post in Hd.
    destruct (limit_reached b);
      [apply refuse_limit_reply in Hd; destruct (Hne _ _ Hd)|].
    destruct (ValidateChecksum b) as [[|] [e|]];
      try (injection Hd as _ Hd; symmetry in Hd; destruct (Hne _ _ Hd)).
    destruct (Decrypt _ _) as [dec [e|]];
      [injection Hd as _ Hd; symmetry in Hd; destruct (Hne _ _ Hd)|].
    destruct (at_limit _).
    + destruct (Store.Destroy _ _ _) as [[e s2]| |] eqn:Hsd; try discriminate.
      injection Hd as <- _. eexists. split; [reflexivity|].
      destruct (Store_Destroy_entry _ _ _ _ _ (count_download b) Hsd)
        as [Hgone | Hkept]; [apply lookup_insert_eq | left; assumption |].
      right. eexists. split; [exact Hkept|]. repeat split.
    + injection Hd as <- _. eapply Hins; [..|reflexivity]; reflexivity.
  - injection Hd as _ Hd. symmetry in Hd. destruct (Hne _ _ Hd).
Qed.

Lemma exhausted_step name env ob r ob' reply :
  name <> "" -> Path r = String "/" name ->
  exhausted name ob ->
  router env ob r = Returns (ob', reply) ->
  ~ releases_bytes reply /\ exhausted name ob'.
Proof.
  intros Hname Hpath (s & Hs & Hex) Hr.
  assert (exhausted name ob) as Hsame by (exists s; auto).
  unfold router in Hr. rewrite Hpath in Hr.
  assert (String.eqb (String "/" name) "/" = false) as Hroot.
  { apply String.eqb_neq. intros Heq. injection Heq as Heq. contradiction. }
  rewrite Hroot in Hr.
  destruct (downloadURLreg_matches _);
    [|injection Hr as <- <-; split; [apply not_releases_error | assumption]].
  rewrite Hs in Hr. simpl in Hr. unfold Store.Exists in Hr.
  destruct (s !! name) as [b|] eqn:Hb;
    [|injection Hr as <- <-; split; [|assumption];
      intros (body & res & []) ].
  specialize (Hex b eq_refl).
  assert (forall ob1 rep, refuse_limit env ob s name = Returns (ob1, rep) ->
            ~ releases_bytes rep /\ exhausted name ob1) as Href.
  { intros ob1 rep Hx. pose proof (refuse_limit_reply _ _ _ _ _ _ Hx) as ->.
    split; [apply not_releases_error|].
    unfold refuse_limit in Hx.
    destruct (Store.Destroy _ name s) as [[err s']| |] eqn:Hsd; try discriminate.
    injection Hx as <-. exists s'. split; [reflexivity|].
    intros b' Hb'.
    destruct (Store_Destroy_entry _ _ _ _ _ b Hsd Hb) as [Hgone | Hkept];
      [congruence|].
    rewrite Hkept in Hb'. injection Hb' as <-. exact Hex. }
  unfold download, Store.Get in Hr. simpl in Hr. rewrite Hs in Hr.
  destruct (method r).
  - rewrite Header_Get_Set, Hb in Hr. unfold download_get in Hr.
    destruct (Encrypted b);
      [injection Hr as <- <-; split; [apply not_releases_page | assumption]|].
    rewrite Hex in Hr. apply Href. assumption.
  - rewrite Header_Get_Set, Hb in Hr. unfold download_post in Hr.
    rewrite Hex in Hr. apply Href. assumption.
  - injection Hr as <- <-. split; [apply not_releases_error | assumption].
Qed.

(** X12. Once the count of a buffer has reached its positive limit, no
    request for its name is ever answered with a body again, whatever the
    method, the passphrase and the answers of the system: the limit is never
    exceeded by later requests. *)
Theorem exhausted_never_served (name : string)
    (reqs : list (HandlerEnv * Request)) (ob ob' : onionbox)
    (replies : list (list Event)) :
  name <> "" ->
  Forall (fun er => Path (snd er) = String "/" name) reqs ->
  exhausted name ob ->
  serve reqs ob = Returns (ob', replies) ->
  Forall (fun reply => ~ releases_bytes reply) replies.
Proof.
  intros Hname Hall. revert ob ob' replies.
  induction Hall as [|[env r] reqs Hpath _ IH]; intros ob ob' replies Hex Hserve.
  - injection Hserve as _ <-. constructor.
  - rewrite serve_cons in Hserve.
    destruct (router env ob r) as [[ob1 reply]| |] eqn:Hr; try discriminate.
    destruct (serve reqs ob1) as [[ob2 rest]| |] eqn:Hrest; try discriminate.
    injection Hserve as _ <-.
    destruct (exhausted_step name env ob r ob1 reply Hname Hpath Hex Hr)
      as [Hno Hex1].
    constructor; [assumption|]. apply (IH ob1 ob2 rest Hex1 Hrest).
Qed.

(** X13. An upload that does not get to write the share link has registered
    nothing: every early return (form, encryption, checksum, limit,
    expiration, name collision) leaves the store as it was. *)
Theorem upload_without_link_changes_nothing (env : HandlerEnv)
    (ob ob' : onionbox) (r : Request) (reply : list Event) :
  upload env ob r = Returns (ob', reply) ->
  ~ releases_bytes reply ->
  ob' = ob.
Proof.
  intros Hu Hno. unfold upload in Hu.
  destruct (method r); try (injection Hu as <- _; reflexivity).
  unfold upload_post in Hu.
  destruct (ParseMultipartForm env); [injection Hu as <- _; reflexivity|].
  destruct (pipeline env) as [zip| |]; try discriminate.
  destruct (upload_content _ _ _ _) as [ev|b1]; [injection Hu as <- _; reflexivity|].
  destruct (upload_limit _ _) as [ev|b2]; [injection Hu as <- _; reflexivity|].
  destruct (upload_expire _ _ _) as [ev|b3]; [injection Hu as <- _; reflexivity|].
  unfold upload_register in Hu.
  destruct (store ob) as [s|]; [|discriminate].
  destruct (Store.Add b3 s) as [s1 [e|]]; [injection Hu as <- _; reflexivity|].
  destruct (Destroy _ b3) as [[e b']| |]; try discriminate.
  injection Hu as _ <-. destruct Hno. eexists _, _. left. reflexivity.
Qed.





End HandlerSafety.

Lemma router_never_panics_witness :
  router (H := Sample.collaborators) Sample.calm
    (Sample.box (Sample.holding (Sample.plain 1)))
    (Sample.request GET "/sillyname")
  <> Panics.
Proof.
  apply (router_never_panics (H := Sample.collaborators) Sample.calm _ _
           (Sample.holding (Sample.plain 1)));
    [reflexivity | discriminate | reflexivity].
Defined.

Lemma download_frame_witness :
  exists s' : Store.t,
    store (with_store
             (<["sillyname" := count_download (Sample.plain 2)]>
                (<["other" := Sample.tampered 0]> (Sample.holding (Sample.plain 2))))
             (Sample.box ∅))
    = Some s' /\
    forall k, k <> "sillyname" ->
      s' !! k
      = (<["other" := Sample.tampered 0]> (Sample.holding (Sample.plain 2))) !! k.
Proof.
  apply (download_frame (H := Sample.collaborators) Sample.calm
           (Sample.box (<["other" := Sample.tampered 0]>
                          (Sample.holding (Sample.plain 2))))
           _ (Header_Set "filename" "sillyname" (Sample.request GET "/sillyname"))
           _ (zip_reply "sillyname" Sample.secret));
    reflexivity.
Defined.

Lemma download_without_body_changes_nothing_witness :
  download (H := Sample.collaborators) Sample.calm
    (Sample.box (Sample.holding (Sample.protected 1)))
    (Header_Set "filename" "sillyname"
       (mkRequest POST "/sillyname" ∅ {[ "password" := "guess" ]}))
  = Returns (Sample.box (Sample.holding (Sample.protected 1)),
             [HttpError "Error decrypting buffer." 500]) /\
  Sample.box (Sample.holding (Sample.protected 1))
  = Sample.box (Sample.holding (Sample.protected 1)).
Proof.
  split; [reflexivity|].
  apply (download_without_body_changes_nothing (H := Sample.collaborators)
           Sample.calm (Sample.box (Sample.holding (Sample.protected 1))) _
           (Header_Set "filename" "sillyname"
              (mkRequest POST "/sillyname" ∅ {[ "password" := "guess" ]}))
           [HttpError "Error decrypting buffer." 500]);
    [reflexivity | apply not_releases_error | discriminate].
Defined.

Lemma download_counts_once_witness :
  exists s' : Store.t,
    store (with_store
             (<["sillyname" := count_download (Sample.plain 2)]>
                (Sample.holding (Sample.plain 2)))
             (Sample.box ∅))
    = Some s' /\
    (s' !! "sillyname" = None \/
     exists b', s' !! "sillyname" = Some b' /\
       Downloads b' = wrap64 (0 + 1) /\
       Bytes b' = Sample.secret /\ Checksum b' = "abc" /\ DownloadLimit b' = 2).
Proof.
  apply (download_counts_once (H := Sample.collaborators) Sample.calm
           (Sample.box (Sample.holding (Sample.plain 2))) _
           (Header_Set "filename" "sillyname" (Sample.request GET "/sillyname"))
           (Sample.holding (Sample.plain 2)) (Sample.plain 2)
           (zip_reply "sillyname" Sample.secret));
    [reflexivity | reflexivity | reflexivity |].
  eexists _, _. right. right. left. reflexivity.
Defined.

Lemma exhausted_never_served_witness :
  serve (H := Sample.collaborators)
    [(Sample.calm, Sample.request GET "/sillyname");
     (Sample.calm, Sample.unlock "/sillyname")]
    (Sample.box (Sample.holding (with_Downloads 1 (Sample.plain 1))))
  = Returns (Sample.box ∅, [limit_reply; []]) /\
  Forall (fun reply => ~ releases_bytes reply) [limit_reply; []].
Proof.
  split; [reflexivity|].
  apply (exhausted_never_served (H := Sample.collaborators) "sillyname"
           [(Sample.calm, Sample.request GET "/sillyname");
            (Sample.calm, Sample.unlock "/sillyname")]
           (Sample.box (Sample.holding (with_Downloads 1 (Sample.plain 1))))
           (Sample.box ∅)).
  - discriminate.
  - repeat (apply List.Forall_cons; [reflexivity|]). apply List.Forall_nil.
  - exists (Sample.holding (with_Downloads 1 (Sample.plain 1))).
    split; [reflexivity|].
    intros b Hb. vm_compute in Hb. injection Hb as <-. reflexivity.
  - reflexivity.
Defined.

Lemma upload_without_link_changes_nothing_witness :
  upload (H := Sample.collaborators) Sample.calm
    (Sample.box (Sample.holding (Sample.plain 0))) (Sample.request POST "/")
  = Returns (Sample.box (Sample.holding (Sample.plain 0)),
             [HttpError "Error adding file to store." 500]) /\
  Sample.box (Sample.holding (Sample.plain 0))
  = Sample.box (Sample.holding (Sample.plain 0)).
Proof.
  split; [reflexivity|].
  apply (upload_without_link_changes_nothing (H := Sample.collaborators)
           Sample.calm (Sample.box (Sample.holding (Sample.plain 0))) _
           (Sample.request POST "/")
           [HttpError "Error adding file to store." 500]);
    [reflexivity | apply not_releases_error].
Defined.



(** ** The upload pipeline: failure, and what follows the signal *)

(** A step of the worker leaves the handler where it is; it is neither the
    return of [wg.Wait()] nor the [close]. *)
Lemma worker_step_shape s l s' :
  Pipeline.worker_step s = Some (l, s') ->
  Pipeline.worker s = Pipeline.Running /\
  Pipeline.handler s' = Pipeline.handler s /\
  l <> Pipeline.WaitReturns /\ l <> Pipeline.Close /\
  (Pipeline.queue s = [] -> Pipeline.queue s' = []) /\
  (l = Pipeline.Done -> Pipeline.queue s' = []).
Proof.
  unfold Pipeline.worker_step.
  destruct (Pipeline.worker s); try discriminate.
  destruct (Pipeline.queue s) as [|f q].
  - destruct (Pipeline.closed s); [|destruct (1 <=? Pipeline.wg s)];
      intros Hx; injection Hx as <- <-; simpl; repeat split; auto; discriminate.
  - destruct (Pipeline.io_fault f);
      intros Hx; injection Hx as <- <-; simpl; repeat split; auto; discriminate.
Qed.

Lemma in_snoc {A} (x y : A) (l : list A) : In x (l ++ [y]) <-> In x l \/ x = y.
Proof.
  rewrite in_app_iff. simpl. intuition congruence.
Qed.

(** X16. When one of the uploaded files raises an I/O error, the worker
    never gives the completion signal: it returns the error without
    [wg.Done()], so [wg.Wait()] in [upload] never returns and the queue is
    never closed. *)
Theorem faulty_file_never_signalled (files : list Pipeline.FileHeader)
    (s0 s : Pipeline.State) (tr : list Pipeline.Label) :
  Pipeline.start files = Returns s0 ->
  Exists (fun f => Pipeline.io_fault f <> None) files ->
  Pipeline.run s0 tr s ->
  ~ In Pipeline.Done tr /\ ~ In Pipeline.WaitReturns tr /\
  ~ In Pipeline.Close tr /\ ~ In Pipeline.Crash tr /\
  Pipeline.handler s = Pipeline.Waiting /\ Pipeline.wg s = 1.
Proof.
  intros Hstart Hbad Hrun. apply start_state in Hstart.
  assert ((Pipeline.worker s = Pipeline.Running ->
           Exists (fun f => Pipeline.io_fault f <> None) (Pipeline.queue s)) /\
          ~ In Pipeline.Done tr /\ ~ In Pipeline.WaitReturns tr /\
          ~ In Pipeline.Close tr /\ ~ In Pipeline.Crash tr /\
          Pipeline.handler s = Pipeline.Waiting /\ Pipeline.wg s = 1) as Hinv;
    [|tauto].
  induction Hrun as [s|s tr s1 l s2 Hrun IH Hstep].
  - subst s. simpl. repeat split; auto.
  - specialize (IH Hstart).
    destruct IH as (Hq & Hd & Hwr & Hcl & Hcr & Hh & Hwg).
    destruct Hstep as [Hw|Hh2].
    + unfold Pipeline.worker_step in Hw.
      destruct (Pipeline.worker s1); try discriminate.
      specialize (Hq eq_refl).
      destruct (Pipeline.queue s1) as [|f q]; [inversion Hq|].
      destruct (Pipeline.io_fault f) eqn:Hf; injection Hw as <- <-; simpl;
        rewrite !in_snoc.
      * repeat split; try assumption; try discriminate;
          intros [Hin|Heq]; try discriminate; auto.
      * repeat split; try assumption;
          try (intros [Hin|Heq]; try discriminate; auto).
        intros _. apply Exists_cons in Hq as [Hbadf|Hrest];
          [congruence | assumption].
    + unfold Pipeline.handler_step in Hh2. rewrite Hh in Hh2.
      assert ((Pipeline.wg s1 =? 0) = false) as Hz by (rewrite Hwg; reflexivity).
      rewrite Hz in Hh2. destruct (Pipeline.worker s1); discriminate.
Qed.

Lemma faulty_file_never_signalled_witness :
  Pipeline.run (Sample.queued [Sample.file_a; Sample.file_bad])
    ([] ++ [Pipeline.Wrote Sample.file_a]) Sample.after_file_a /\
  ~ In Pipeline.Done ([] ++ [Pipeline.Wrote Sample.file_a]) /\
  ~ In Pipeline.WaitReturns ([] ++ [Pipeline.Wrote Sample.file_a]) /\
  ~ In Pipeline.Close ([] ++ [Pipeline.Wrote Sample.file_a]) /\
  ~ In Pipeline.Crash ([] ++ [Pipeline.Wrote Sample.file_a]) /\
  Pipeline.handler Sample.after_file_a = Pipeline.Waiting /\
  Pipeline.wg Sample.after_file_a = 1.
Proof.
  assert (Pipeline.run (Sample.queued [Sample.file_a; Sample.file_bad])
            ([] ++ [Pipeline.Wrote Sample.file_a]) Sample.after_file_a) as Hrun.
  { apply (Pipeline.run_snoc _ [] _ _ _ (Pipeline.run_nil _)).
    apply Pipeline.step_worker. reflexivity. }
  split; [exact Hrun|].
  apply (faulty_file_never_signalled [Sample.file_a; Sample.file_bad]
           (Sample.queued [Sample.file_a; Sample.file_bad]) Sample.after_file_a
           ([] ++ [Pipeline.Wrote Sample.file_a]) eq_refl); [|exact Hrun].
  apply Exists_cons. right. apply Exists_cons. left. discriminate.
Defined.

Lemma run_after_done files s0 tr s :
  Pipeline.start files = Returns s0 ->
  Pipeline.run s0 tr s ->
  In Pipeline.Done tr -> Pipeline.queue s = [] /\ Pipeline.wg s = 0.
Proof.
  intros Hstart Hrun Hin.
  destruct (run_invariant files s0 tr s Hstart Hrun) as (_ & _ & Hwg).
  split; [|destruct Hwg as [[_ Hno]|[Hz _]]; [contradiction | assumption]].
  clear Hwg. induction Hrun as [s|s tr s1 l s2 Hrun IH Hstep]; [destruct Hin|].
  apply in_snoc in Hin. destruct Hstep as [Hw|Hh].
  - apply worker_step_shape in Hw as (_ & _ & _ & _ & Hkeep & Hdone).
    destruct Hin as [Hin|Heq]; [apply Hkeep, IH; assumption | apply Hdone; auto].
  - apply handler_step_shape in Hh as (Hq & _ & _ & _ & Hl & _).
    rewrite Hq. destruct Hin as [Hin|Heq]; [apply IH; assumption | congruence].
Qed.

(** X17. [writeFilesToBuffers] does not stop after the completion signal:
    its loop goes on, and the next iteration it gets to run panics, on the
    second [wg.Done()] while the queue is still open, on the nil file header
    once it is closed. *)
Theorem worker_panics_after_signal (files : list Pipeline.FileHeader)
    (s0 s s' : Pipeline.State) (tr : list Pipeline.Label) (l : Pipeline.Label) :
  Pipeline.start files = Returns s0 ->
  Pipeline.run s0 tr s ->
  In Pipeline.Done tr ->
  Pipeline.worker_step s = Some (l, s') ->
  l = Pipeline.Crash /\ Pipeline.worker s' = Pipeline.Panicked.
Proof.
  intros Hstart Hrun Hin Hw.
  destruct (run_after_done files s0 tr s Hstart Hrun Hin) as [Hq Hwg].
  unfold Pipeline.worker_step in Hw. rewrite Hq, Hwg in Hw.
  destruct (Pipeline.worker s); try discriminate.
  destruct (Pipeline.closed s); injection Hw as <- <-; auto.
Qed.

Lemma worker_panics_after_signal_witness :
  Pipeline.run (Sample.queued []) ([] ++ [Pipeline.Done]) Sample.signalled /\
  In Pipeline.Done ([] ++ [Pipeline.Done]) /\
  Pipeline.worker_step Sample.signalled
  = Some (Pipeline.Crash, Sample.crashed) /\
  Pipeline.Crash = Pipeline.Crash /\
  Pipeline.worker Sample.crashed = Pipeline.Panicked.
Proof.
  assert (Pipeline.run (Sample.queued []) ([] ++ [Pipeline.Done])
            Sample.signalled) as Hrun.
  { apply (Pipeline.run_snoc _ [] _ _ _ (Pipeline.run_nil _)).
    apply Pipeline.step_worker. reflexivity. }
  split; [exact Hrun|]. split; [simpl; auto|]. split; [reflexivity|].
  apply (worker_panics_after_signal [] (Sample.queued []) Sample.signalled
           Sample.crashed ([] ++ [Pipeline.Done]) Pipeline.Crash eq_refl Hrun);
    [simpl; auto | reflexivity].
Defined.

Lemma handler_step_cases s l s' :
  Pipeline.handler_step s = Some (l, s') ->
  Pipeline.handler s = Pipeline.Waiting /\ Pipeline.wg s = 0 /\
  l = Pipeline.WaitReturns /\ Pipeline.handler s' = Pipeline.Closing
  \/
  Pipeline.handler s = Pipeline.Closing /\
  l = Pipeline.Close /\ Pipeline.handler s' = Pipeline.Finished.
Proof.
  unfold Pipeline.handler_step.
  destruct (Pipeline.worker s), (Pipeline.handler s); try discriminate;
    try (destruct (Z.eqb_spec (Pipeline.wg s) 0); [|discriminate]);
    intros Hx; injection Hx as <- <-; simpl; auto.
Qed.

(** X18. The order of the hand-over to [upload]: [wg.Wait()] returns only
    after the completion signal, and [close(uploadQueue)] runs only after
    [wg.Wait()] has returned. *)
Theorem close_follows_signal (files : list Pipeline.FileHeader)
    (s0 s : Pipeline.State) (tr : list Pipeline.Label) :
  Pipeline.start files = Returns s0 ->
  Pipeline.run s0 tr s ->
  (In Pipeline.WaitReturns tr -> In Pipeline.Done tr) /\
  (In Pipeline.Close tr -> In Pipeline.WaitReturns tr).
Proof.
  intros Hstart Hrun.
  assert ((Pipeline.handler s = Pipeline.Waiting \/ In Pipeline.WaitReturns tr) /\
          (In Pipeline.WaitReturns tr -> In Pipeline.Done tr) /\
          (In Pipeline.Close tr -> In Pipeline.WaitReturns tr)) as Hinv; [|tauto].
  induction Hrun as [s|s tr s1 l s2 Hrun IH Hstep].
  - apply start_state in Hstart. subst s. simpl. tauto.
  - destruct (IH Hstart) as (Hh & Hwd & Hcw).
    destruct (run_invariant files s tr s1 Hstart Hrun) as (_ & _ & Hwg).
    rewrite !in_snoc. destruct Hstep as [Hw|Hh2].
    + apply worker_step_shape in Hw as (_ & Hsame & Hnw & Hnc & _ & _).
      rewrite Hsame. repeat split.
      * destruct Hh; auto.
      * intros [Hin|Heq]; [auto | congruence].
      * intros [Hin|Heq]; [auto | congruence].
    + apply handler_step_cases in Hh2
        as [(Hhs & Hz & -> & Hnext) | (Hhs & -> & Hnext)]; rewrite Hnext.
      * assert (In Pipeline.Done tr) as Hdone
          by (destruct Hwg as [[Hone _]|[_ Hin]]; [lia | assumption]).
        repeat split; auto; intros [Hin|Heq]; auto; discriminate.
      * destruct Hh as [Hh|Hh]; [congruence|].
        repeat split; auto; intros [Hin|Heq]; auto; discriminate.
Qed.

Lemma close_follows_signal_witness :
  (In Pipeline.WaitReturns
     (([] ++ [Pipeline.Done]) ++ [Pipeline.WaitReturns]) ->
   In Pipeline.Done (([] ++ [Pipeline.Done]) ++ [Pipeline.WaitReturns])) /\
  (In Pipeline.Close (([] ++ [Pipeline.Done]) ++ [Pipeline.WaitReturns]) ->
   In Pipeline.WaitReturns (([] ++ [Pipeline.Done]) ++ [Pipeline.WaitReturns])).
Proof.
  apply (close_follows_signal [] (Sample.queued [])
           (Pipeline.mkState [] false 0 [] Pipeline.Running Pipeline.Closing)
           (([] ++ [Pipeline.Done]) ++ [Pipeline.WaitReturns]) eq_refl).
  apply (Pipeline.run_snoc _ _ Sample.signalled).
  - apply (Pipeline.run_snoc _ [] _ _ _ (Pipeline.run_nil _)).
    apply Pipeline.step_worker. reflexivity.
  - apply Pipeline.step_handler. reflexivity.
Defined.


